(** * Sawyer address maps: a shallow embedding and its properties

    The development follows the three headers of the container library:
    [AddressMap.h] (the segment merge policy and the address map with its
    [available], [read] and [write] algorithms), [MappedBuffer.h] and
    [NullBuffer.h].

    Conventions.
    - [Address] is an unsigned integer type of [width] bits, not narrower
      than [unsigned int]; a value is a [Z] in [0, 2^width) and every
      arithmetic operation of the source on addresses is followed by [wrap].
    - [unsigned] (the accessibility word) has 32 bits.
    - A [Buffer::Ptr] is the identity of a heap object: a key of the heap
      [gmap nat B]. Two pointers are equal when the keys are.
    - A [Value*] argument is an index into the caller's array (a list).
      Reading or storing outside that array is undefined in C++; the
      embedding returns [None] there. *)

From Stdlib Require Import ZArith Lia Bool List String.
From Stdlib.Strings Require Import Byte.
From stdpp Require Import base numbers option list gmap.

Local Open Scope Z_scope.

(** ** Machine integers *)

Definition modulus (width : N) : Z := 2 ^ Z.of_N width.

Definition wrap (width : N) (x : Z) : Z := x mod modulus width.

Definition in_range (width : N) (x : Z) : Prop := 0 <= x < modulus width.

(** ** The caller's array behind a [Value*] *)

Section Memory.
Context {X : Type}.

Definition load (mem : list X) (p k : nat) : option (list X) :=
  if decide (p + k <= length mem)%nat then Some (take k (drop p mem)) else None.

Definition store (mem : list X) (p : nat) (xs : list X) : option (list X) :=
  if decide (p + length xs <= length mem)%nat
  then Some (take p mem ++ xs ++ drop (p + length xs) mem)
  else None.
End Memory.

(** ** Intervals *)

Module Interval.

(** Modelled from the spec: [Interval<T>] of [Interval.h], which is not among
    the sources. Section 3 of the specification describes an interval as a
    closed range [[lower, upper]] over the unsigned address domain that may
    be canonically empty; the operations below are the ones [AddressMap.h]
    calls, with the meaning their names and the specification give them. *)
Inductive t : Type :=
| Empty
| Range (lo hi : Z).

(** Modelled from the spec: [Interval::isEmpty] of the missing [Interval.h]. *)
Definition isEmpty (i : t) : bool :=
  match i with Empty => true | Range _ _ => false end.

(** Modelled from the spec: [Interval::lower] of the missing [Interval.h];
    the sources only call it on non-empty intervals. *)
Definition lower (i : t) : Z :=
  match i with Empty => 0 | Range lo _ => lo end.

(** Modelled from the spec: [Interval::upper] of the missing [Interval.h];
    the sources only call it on non-empty intervals. *)
Definition upper (i : t) : Z :=
  match i with Empty => 0 | Range _ hi => hi end.

(** Modelled from the spec: [Interval::isContaining] of the missing
    [Interval.h], for a single address. *)
Definition isContaining (i : t) (a : Z) : bool :=
  match i with
  | Empty => false
  | Range lo hi => (lo <=? a) && (a <=? hi)
  end.

(** Modelled from the spec: [Interval::intersection] of the missing
    [Interval.h]: the addresses common to both intervals. *)
Definition intersection (i j : t) : t :=
  match i, j with
  | Range a b, Range c d =>
      if Z.max a c <=? Z.min b d then Range (Z.max a c) (Z.min b d) else Empty
  | _, _ => Empty
  end.

(** Modelled from the spec: [Interval::hull] of the missing [Interval.h]:
    the smallest interval that contains both; the "union" of step 7 of
    section 4.4 for adjacent intervals. *)
Definition hull (i j : t) : t :=
  match i, j with
  | Empty, _ => j
  | _, Empty => i
  | Range a b, Range c d => Range (Z.min a c) (Z.max b d)
  end.

Section WithWidth.
Context (width : N).

(** Modelled from the spec: [Interval::size] of the missing [Interval.h]:
    the number of addresses, a value of the address type ([read] and
    [write] pass it as the [Address n] of a buffer call). *)
Definition size (i : t) : Z :=
  match i with
  | Empty => 0
  | Range lo hi => wrap width (hi - lo + 1)
  end.

(** Modelled from the spec: [Interval::baseSize] of the missing
    [Interval.h]: the interval of [sz] addresses that starts at [lo]. *)
Definition baseSize (lo sz : Z) : t :=
  if sz =? 0 then Empty else Range lo (wrap width (lo + sz - 1)).

End WithWidth.

(** The set of addresses of an interval. *)
Definition elem (a : Z) (i : t) : Prop :=
  match i with Empty => False | Range lo hi => lo <= a <= hi end.

End Interval.

(** ** Segments *)

(** Modelled from the spec: [AddressSegment<A, T>] of [AddressSegment.h],
    which is not among the sources. Section 3 gives a segment three
    attributes: the shared buffer it refers
    to, the offset in that buffer of the interval's lower address, and the
    accessibility word. *)
Record Segment : Type := mkSegment {
  buffer : nat;
  offset : Z;
  accessibility : Z
}.

Definition set_offset (s : Segment) (o : Z) : Segment :=
  {| buffer := buffer s; offset := o; accessibility := accessibility s |}.

(** ** Assertions *)

(** Modelled from the spec: the macros [ASSERT_require] and [ASSERT_forbid]
    of [Assert.h], which is not among the sources. By section 7 a violated
    precondition of the merge and split helpers is a programming error that
    is rejected: the call yields no result, [None] in the embedding. The
    last argument is the rest of the function body. *)
Definition ASSERT_require {A : Type} (condition : bool) (rest : option A) : option A :=
  if condition then rest else None.

Definition ASSERT_forbid {A : Type} (condition : bool) (rest : option A) : option A :=
  if condition then None else rest.

(** ** SegmentMergePolicy *)

Module SegmentMergePolicy.
Section WithWidth.
Context (width : N).

(** The segments are taken by reference: the result carries, after the
    returned value, the two segments as the call leaves them. *)
Definition merge (leftInterval : Interval.t) (leftSegment : Segment)
                 (rightInterval : Interval.t) (rightSegment : Segment)
  : option (bool * Segment * Segment) :=
  ASSERT_forbid (Interval.isEmpty leftInterval)
    (ASSERT_forbid (Interval.isEmpty rightInterval)
       (ASSERT_require
          (wrap width (Interval.upper leftInterval + 1) =? Interval.lower rightInterval)
          (Some ((accessibility leftSegment =? accessibility rightSegment)
                 && Nat.eqb (buffer leftSegment) (buffer rightSegment)
                 && (wrap width (offset leftSegment + Interval.size width leftInterval)
                     =? offset rightSegment),
                 leftSegment, rightSegment)))).

(** The result is the pair of the segment as the call leaves it and the
    returned right-hand segment. *)
Definition split (interval : Interval.t) (segment : Segment) (splitPoint : Z)
  : option (Segment * Segment) :=
  ASSERT_forbid (Interval.isEmpty interval)
    (ASSERT_require (Interval.isContaining interval splitPoint)
       (let right := segment in
        let right := set_offset right
                       (wrap width (offset segment + splitPoint - Interval.lower interval)) in
        Some (segment, right))).

(** The result is the segment as the call leaves it. *)
Definition truncate (interval : Interval.t) (segment : Segment) (splitPoint : Z)
  : option Segment :=
  ASSERT_forbid (Interval.isEmpty interval)
    (ASSERT_require (Interval.isContaining interval splitPoint)
       (Some segment)).
End WithWidth.
End SegmentMergePolicy.

(** ** NullBuffer *)

Module NullBuffer.
Section WithValue.
Context (width : N) {V : Type} (Value : V).

Record t : Type := mk { size_ : Z }.

Definition instance (size : Z) : t := {| size_ := size |}.

Definition available (b : t) (start : Z) : Z :=
  if start <? size_ b then wrap width (size_ b - start) else 0.

Definition resize (b : t) (newSize : Z) : t := {| size_ := newSize |}.

(** [for (Address i=0; i<n; ++i) buf[i] = Value();] with [k] iterations
    left; [buf] is the index [p] of the caller's array. *)
Fixpoint fill (mem : list V) (p : nat) (i : nat) (k : nat) : option (list V) :=
  match k with
  | O => Some mem
  | S k' =>
      if decide (p + i < length mem)%nat
      then fill (<[(p + i)%nat := Value]> mem) p (S i) k'
      else None
  end.

(** [buf] is [None] for the null pointer. *)
Definition read (b : t) (mem : list V) (buf : option nat) (address n : Z)
  : option (list V * Z) :=
  let nread := Z.min (available b address) n in
  match buf with
  | Some p =>
      match fill mem p 0 (Z.to_nat n) with
      | Some mem' => Some (mem', nread)
      | None => None
      end
  | None => Some (mem, nread)
  end.

Definition write (b : t) (mem : list V) (buf : option nat) (address n : Z)
  : option (t * Z) :=
  Some (b, 0).
End WithValue.
End NullBuffer.

(** ** MappedBuffer *)

Module MappedBuffer.

(** The mapped file [device_], as the buffer uses it: [device_.size()] in
    bytes and the mapped bytes behind [device_.data()] and
    [device_.const_data()], both of type [char*]. The size has type
    [size_t], which may be wider than [Address]. The mapping is one obtained
    with write access. *)
Record t : Type := mk {
  device_size : Z;
  device_data : Z -> byte
}.

Inductive exception : Type :=
| runtime_error (what : string).

Section WithValue.
Context (width : N) (sizeofValue : Z).

Definition available (b : t) (address : Z) : Z :=
  if address >=? device_size b then 0
  else wrap width (wrap width (wrap width (device_size b) - address) / sizeofValue).

Definition resize (b : t) (n : Z) : exception + t :=
  if negb (n =? device_size b)
  then inl (runtime_error "resizing not allowed for MappedBuffer")
  else inr b.

(** The bytes [device_.const_data() + address], [len] of them; outside
    the mapping the access is undefined. A copy of no bytes accesses
    nothing. *)
Definition device_bytes (b : t) (address len : Z) : option (list byte) :=
  if decide (len = 0 \/ (0 <= address /\ 0 <= len /\ address + len <= device_size b))
  then Some (device_data b <$> seqZ address len)
  else None.

(** The mapping after [memcpy(device_.data() + address, xs, |xs|)]. *)
Definition device_store (b : t) (address : Z) (xs : list byte) : option t :=
  if decide (length xs = 0%nat
             \/ (0 <= address /\ address + Z.of_nat (length xs) <= device_size b))
  then Some {| device_size := device_size b;
               device_data := fun j =>
                 if decide (address <= j < address + Z.of_nat (length xs))
                 then default (device_data b j) (xs !! Z.to_nat (j - address))
                 else device_data b j |}
  else None.

(** [address] is added to the [char*] of the mapping: it is a byte offset.
    The caller's array of values is taken as its bytes, and [buf] is a byte
    index into it. *)
Definition read (b : t) (mem : list byte) (buf : nat) (address n : Z)
  : option (list byte * Z) :=
  let nread := Z.min n (available b address) in
  match device_bytes b address (nread * sizeofValue) with
  | Some xs =>
      match store mem buf xs with
      | Some mem' => Some (mem', nread)
      | None => None
      end
  | None => None
  end.

Definition write (b : t) (mem : list byte) (buf : nat) (address n : Z)
  : option (t * Z) :=
  let nwritten := Z.min n (available b address) in
  match load mem buf (Z.to_nat (nwritten * sizeofValue)) with
  | Some xs =>
      match device_store b address xs with
      | Some b' => Some (b', nwritten)
      | None => None
      end
  | None => None
  end.
End WithValue.
End MappedBuffer.

(** ** The buffer interface *)

(** Modelled from the spec: the abstract class [Buffer<A, T>] of [Buffer.h],
    which is not among the sources. Section 6 gives the capability contract
    the address map relies on: [read] copies up to [count] values starting
    at [address] into the destination and returns the number copied,
    [write] is symmetric. A call receives the caller's array and the
    position of the [Value*] in it; [read] returns the array as the call
    leaves it, [write] the buffer as the call leaves it. *)
Class Buffer (width : N) (V B : Type) : Type := {
  buf_read : B -> list V -> nat -> Z -> Z -> option (list V * Z);
  buf_write : B -> list V -> nat -> Z -> Z -> option (B * Z)
}.

(** The contract's bound on the returned count: a transfer of [n] values
    returns a count between [0] and [n]. *)
Definition bounded_transfers (width : N) (V B : Type) `{!Buffer width V B} : Prop :=
  (forall b mem p a n mem' k,
      0 <= n -> buf_read b mem p a n = Some (mem', k) -> 0 <= k <= n)
  /\ (forall b mem p a n b' k,
      0 <= n -> buf_write b mem p a n = Some (b', k) -> 0 <= k <= n).

(** The objects behind a [Buffer<A, uint8_t>::Ptr]: the dynamic type selects
    the override that a virtual call runs. *)
Inductive BufferObject : Type :=
| Null (b : NullBuffer.t)
| Mapped (b : MappedBuffer.t).

#[export] Instance BufferObject_Buffer (width : N) : Buffer width byte BufferObject := {|
  buf_read o mem p a n :=
    match o with
    | Null b => NullBuffer.read width x00 b mem (Some p) a n
    | Mapped b => MappedBuffer.read width 1 b mem p a n
    end;
  buf_write o mem p a n :=
    match o with
    | Null b =>
        match NullBuffer.write b mem (Some p) a n with
        | Some (b', k) => Some (Null b', k)
        | None => None
        end
    | Mapped b =>
        match MappedBuffer.write width 1 b mem p a n with
        | Some (b', k) => Some (Mapped b', k)
        | None => None
        end
    end
|}.

(** ** AddressMap *)

Module AddressMap.

(** Modelled from the spec: the nodes of [IntervalMap], whose header
    [IntervalMap.h] is not among the sources. By sections 3 and 4.1 the map
    is the collection of its nodes, each an interval with its segment, in
    ascending address order. An iterator is the list of the nodes from its
    position on, the end marker is the empty list, and [++found] is the
    tail. *)
Definition Node : Type := Interval.t * Segment.

Definition key (n : Node) : Interval.t := fst n.

Definition value (n : Node) : Segment := snd n.

(** Modelled from the spec: [IntervalMap::find] of the missing
    [IntervalMap.h]; by section 4.1 it returns an iterator to the node whose
    interval contains the address, or the end marker if none. *)
Fixpoint find (m : list Node) (a : Z) : list Node :=
match m with
| [] => []
| n :: rest => if Interval.isContaining (key n) a then m else find rest a
end.

Definition READABLE : Z := 0x00000004.
Definition WRITABLE : Z := 0x00000002.
Definition EXECUTABLE : Z := 0x00000001.
Definition RESERVED_MASK : Z := 0x000000ff.
Definition USERDEF_MASK : Z := 0xffffff00.

Definition isAccessAllowed (has required prohibited : Z) : bool :=
(Z.land has required =? required)
&& (Z.land (wrap 32 (Z.lnot has)) prohibited =? prohibited).

(** One call of [read] or [write] on an underlying buffer, as the log of a
  traversal records it: the intersection [part] the transfer is for (it
  starts at [part.lower()] and asks for [part.size()] values), the buffer
  and the offset in it, and the count the buffer returned. *)
Record Transfer : Type := mkTransfer {
t_part : Interval.t;
t_buffer : nat;
t_offset : Z;
t_returned : Z
}.

Section WithWidth.
Context (width : N).

Fixpoint available_loop (start : Z) (requiredAccess prohibitedAccess : Z)
     (found : list Node) (retval : Interval.t) : Interval.t :=
match found with
| [] => retval
| n :: next =>
  if negb (Interval.lower (key n) =? wrap width (Interval.upper retval + 1))
  then retval
  else if negb (isAccessAllowed (accessibility (value n))
                                requiredAccess prohibitedAccess)
  then retval
  else available_loop start requiredAccess prohibitedAccess next
         (Interval.Range start (Interval.upper (key n)))
end.

Definition available (m : list Node) (start : Z)
       (requiredAccess prohibitedAccess : Z) : Interval.t :=
match find m start with
| [] => Interval.Empty
| n :: next =>
  available_loop start requiredAccess prohibitedAccess next
    (Interval.Range start (Interval.upper (key n)))
end.

Section WithBuffers.
Context {V B : Type} `{!Buffer width V B}.

(** The loop of [read]; the heap of buffers is not changed by it. The
result is the returned interval, the caller's array as the call
leaves it, and the log of the calls made on buffers. *)
Fixpoint read_loop (h : gmap nat B) (found : list Node) (where_ : Interval.t)
   (requiredAccess prohibitedAccess : Z)
   (mem : list V) (buf : nat) (retval : Interval.t) (log : list Transfer)
: option (Interval.t * list V * list Transfer) :=
match found with
| [] => Some (retval, mem, log)
| n :: next =>
if negb (isAccessAllowed (accessibility (value n))
                         requiredAccess prohibitedAccess)
then Some (retval, mem, log)
else
  let part := Interval.intersection where_ (key n) in
  if Interval.isEmpty part
     || (negb (Interval.isEmpty retval)
         && negb (wrap width (Interval.upper retval + 1) =? Interval.lower part))
  then Some (retval, mem, log)
  else
    let bufferOffset :=
      wrap width (Interval.lower part - Interval.lower (key n)
                  + offset (value n)) in
    match h !! buffer (value n) with
    | None => None
    | Some b =>
        match buf_read b mem buf bufferOffset (Interval.size width part) with
        | None => None
        | Some (mem', nread) =>
            let log' := log ++ [mkTransfer part (buffer (value n))
                                  bufferOffset nread] in
            if negb (nread =? Interval.size width part)
            then Some (Interval.hull retval
                         (Interval.baseSize width (Interval.lower part) nread),
                       mem', log')
            else read_loop h next where_ requiredAccess prohibitedAccess
                   mem' (buf + Z.to_nat nread)%nat
                   (Interval.hull retval part) log'
        end
    end
end.

Definition read (h : gmap nat B) (m : list Node) (mem : list V) (buf : nat)
     (where_ : Interval.t) (requiredAccess prohibitedAccess : Z)
: option (Interval.t * list V * list Transfer) :=
if negb (Interval.isEmpty where_)
then read_loop h (find m (Interval.lower where_)) where_
   requiredAccess prohibitedAccess mem buf Interval.Empty []
else Some (Interval.Empty, mem, []).

(** The loop of [write]; the caller's array is not changed by it. The
result is the returned interval, the heap of buffers as the call
leaves it, and the log of the calls made on buffers. *)
Fixpoint write_loop (h : gmap nat B) (found : list Node) (where_ : Interval.t)
   (requiredAccess prohibitedAccess : Z)
   (mem : list V) (buf : nat) (retval : Interval.t) (log : list Transfer)
: option (Interval.t * gmap nat B * list Transfer) :=
match found with
| [] => Some (retval, h, log)
| n :: next =>
if negb (isAccessAllowed (accessibility (value n))
                         requiredAccess prohibitedAccess)
then Some (retval, h, log)
else
  let part := Interval.intersection where_ (key n) in
  if Interval.isEmpty part
     || (negb (Interval.isEmpty retval)
         && negb (wrap width (Interval.upper retval + 1) =? Interval.lower part))
  then Some (retval, h, log)
  else
    let bufferOffset :=
      wrap width (Interval.lower part - Interval.lower (key n)
                  + offset (value n)) in
    match h !! buffer (value n) with
    | None => None
    | Some b =>
        match buf_write b mem buf bufferOffset (Interval.size width part) with
        | None => None
        | Some (b', nwritten) =>
            let h' := <[buffer (value n) := b']> h in
            let log' := log ++ [mkTransfer part (buffer (value n))
                                  bufferOffset nwritten] in
            if negb (nwritten =? Interval.size width part)
            then Some (Interval.hull retval
                         (Interval.baseSize width (Interval.lower part) nwritten),
                       h', log')
            else write_loop h' next where_ requiredAccess prohibitedAccess
                   mem (buf + Z.to_nat nwritten)%nat
                   (Interval.hull retval part) log'
        end
    end
end.

Definition write (h : gmap nat B) (m : list Node) (mem : list V) (buf : nat)
     (where_ : Interval.t) (requiredAccess prohibitedAccess : Z)
: option (Interval.t * gmap nat B * list Transfer) :=
if negb (Interval.isEmpty where_)
then write_loop h (find m (Interval.lower where_)) where_
   requiredAccess prohibitedAccess mem buf Interval.Empty []
else Some (Interval.Empty, h, []).

(** The overload [read(buf, start, size, requiredAccess, prohibitedAccess)]:
    the size of the interval that the interval overload returns. *)
Definition read_size (h : gmap nat B) (m : list Node) (mem : list V) (buf : nat)
           (start size : Z) (requiredAccess prohibitedAccess : Z)
  : option (Z * list V * list Transfer) :=
  match read h m mem buf (Interval.baseSize width start size)
             requiredAccess prohibitedAccess with
  | Some (retval, mem', log) => Some (Interval.size width retval, mem', log)
  | None => None
  end.

(** The overload [write(buf, start, size, requiredAccess, prohibitedAccess)]. *)
Definition write_size (h : gmap nat B) (m : list Node) (mem : list V) (buf : nat)
           (start size : Z) (requiredAccess prohibitedAccess : Z)
  : option (Z * gmap nat B * list Transfer) :=
  match write h m mem buf (Interval.baseSize width start size)
              requiredAccess prohibitedAccess with
  | Some (retval, h', log) => Some (Interval.size width retval, h', log)
  | None => None
  end.

End WithBuffers.

(** *** The traversal as the specification describes it

    The definitions below restate section 4.4 of the specification; the
    properties compare the loops above with them. *)

(** Steps 3 and 4: the node passes when its accessibility satisfies the
    filter, its intersection with the request is not empty, and that
    intersection continues the accumulated result. *)
Definition passes (where_ : Interval.t) (requiredAccess prohibitedAccess : Z)
           (acc : Interval.t) (n : Node) : Prop :=
  isAccessAllowed (accessibility (value n)) requiredAccess prohibitedAccess = true
  /\ Interval.isEmpty (Interval.intersection where_ (key n)) = false
  /\ (Interval.isEmpty acc = true
      \/ wrap width (Interval.upper acc + 1)
         = Interval.lower (Interval.intersection where_ (key n))).

(** Step 5 and 6: the call made on the buffer of node [n], returning [k]. *)
Definition transfer_at (where_ : Interval.t) (n : Node) (k : Z) : Transfer :=
  let part := Interval.intersection where_ (key n) in
  mkTransfer part (buffer (value n))
    (wrap width (Interval.lower part - Interval.lower (key n) + offset (value n))) k.

(** [Traversal where_ req proh acc found log res]: from the accumulated
    interval [acc] and the iterator [found], the traversal makes the buffer
    calls [log], in this order, and returns [res]. It ends at the end
    marker, stops in front of the first node that does not pass, stops after
    a short transfer with the accumulated interval extended by the short
    count, and otherwise accumulates the intersection and goes on with the
    next node. *)
Inductive Traversal (where_ : Interval.t) (requiredAccess prohibitedAccess : Z)
  : Interval.t -> list Node -> list Transfer -> Interval.t -> Prop :=
| traversal_end acc :
    Traversal where_ requiredAccess prohibitedAccess acc [] [] acc
| traversal_stop acc n next :
    ~ passes where_ requiredAccess prohibitedAccess acc n ->
    Traversal where_ requiredAccess prohibitedAccess acc (n :: next) [] acc
| traversal_short acc n next k :
    passes where_ requiredAccess prohibitedAccess acc n ->
    k <> Interval.size width (Interval.intersection where_ (key n)) ->
    Traversal where_ requiredAccess prohibitedAccess acc (n :: next)
      [transfer_at where_ n k]
      (Interval.hull acc
         (Interval.baseSize width
            (Interval.lower (Interval.intersection where_ (key n))) k))
| traversal_full acc n next log res :
    passes where_ requiredAccess prohibitedAccess acc n ->
    Traversal where_ requiredAccess prohibitedAccess
      (Interval.hull acc (Interval.intersection where_ (key n))) next log res ->
    Traversal where_ requiredAccess prohibitedAccess acc (n :: next)
      (transfer_at where_ n (Interval.size width (Interval.intersection where_ (key n)))
       :: log)
      res.

(** The interval accumulated by the complete transfers of a log. *)
Definition accumulated (log : list Transfer) : Interval.t :=
  foldl (fun acc t => Interval.hull acc (t_part t)) Interval.Empty log.

(** The addresses a log transferred: each call moved [t_returned] values,
    the first of them at the lower bound of its intersection. *)
Definition transferred (log : list Transfer) (a : Z) : Prop :=
  exists t, t ∈ log
            /\ Interval.lower (t_part t) <= a < Interval.lower (t_part t) + t_returned t.

(** The invariant of the interval map (section 3): the stored intervals are
    non-empty, lie in the address domain, are pairwise disjoint and in
    ascending order. [above b m] also says that they all lie above [b]. *)
Fixpoint above (b : Z) (m : list Node) : Prop :=
  match m with
  | [] => True
  | n :: rest =>
      match key n with
      | Interval.Empty => False
      | Interval.Range lo hi => b < lo /\ lo <= hi /\ hi < modulus width /\ above hi rest
      end
  end.

Definition ordered (m : list Node) : Prop := above (-1) m.

End WithWidth.

(** The buffer cell behind an address: the buffer of the node that contains
    the address, and the offset in it. *)
Fixpoint backing (m : list Node) (a : Z) : option (nat * Z) :=
  match m with
  | [] => None
  | n :: rest =>
      if Interval.isContaining (key n) a
      then Some (buffer (value n), a - Interval.lower (key n) + offset (value n))
      else backing rest a
  end.

End AddressMap.

(** ** Auxiliary notions for the properties *)

(** A buffer call that returned at most the count it was asked for. *)
Definition counted (width : N) (t : AddressMap.Transfer) : Prop :=
  0 <= AddressMap.t_returned t <= Interval.size width (AddressMap.t_part t).

(** The state of a traversal over an ordered map: nothing accumulated yet,
    or an interval of the request that ends at [b], below the nodes left. *)
Definition progress (wl wu b : Z) (acc : Interval.t) : Prop :=
  acc = Interval.Empty
  \/ exists a0, acc = Interval.Range a0 b /\ wl <= a0 /\ a0 <= b /\ b <= wu.


(** The byte a mapped buffer of the heap holds in a cell. *)
Definition cell_at (h : gmap nat BufferObject) (c : nat * Z) : option byte :=
  match h !! c.1 with
  | Some (Mapped b) => Some (MappedBuffer.device_data b c.2)
  | _ => None
  end.





(** A [read] of [n] values into the caller's array at position [p] stores
    nothing outside the [n] positions from [p] on. *)
Definition stores_within (width : N) (V B : Type) `{!Buffer width V B} : Prop :=
  forall b (mem : list V) p a n mem' k,
    0 <= n -> buf_read b mem p a n = Some (mem', k) ->
    length mem' = length mem
    /\ (forall i, (i < p \/ p + Z.to_nat n <= i)%nat -> mem' !! i = mem !! i).

(** The number of addresses of an interval, as an integer. *)
Definition span (i : Interval.t) : Z :=
  match i with
  | Interval.Empty => 0
  | Interval.Range lo hi => hi - lo + 1
  end.

(** The number of values that the buffer calls of a log returned. *)
Definition total_returned (log : list AddressMap.Transfer) : Z :=
  foldr (fun t acc => AddressMap.t_returned t + acc) 0 log.

(** A buffer call that returned the whole count it was asked for. *)
Definition complete (width : N) (t : AddressMap.Transfer) : Prop :=
  AddressMap.t_returned t = Interval.size width (AddressMap.t_part t).

(** ** Concrete maps and buffers *)

Module Examples.

(** A single segment over [[0, 9]] with no accessibility bit set. *)
Definition restricted_map : list AddressMap.Node :=
  [(Interval.Range 0 9, mkSegment 1 0 0)].

Definition restricted_heap : gmap nat BufferObject :=
  {[ 1%nat := Null (NullBuffer.instance 10) ]}.

(** A mapping of [2^32 + 8] bytes, all zero. *)
Definition large_mapping : MappedBuffer.t :=
  {| MappedBuffer.device_size := 2 ^ 32 + 8;
     MappedBuffer.device_data := fun _ => x00 |}.

(** A mapping of the six bytes 10, 11, 12, 13, 14, 15. *)
Definition small_mapping : MappedBuffer.t :=
  {| MappedBuffer.device_size := 6;
     MappedBuffer.device_data := fun j =>
       default x00 ([x0a; x0b; x0c; x0d; x0e; x0f] !! Z.to_nat j) |}.

(** A mapping of the four bytes 20, 21, 22, 23. *)
Definition four_mapping : MappedBuffer.t :=
  {| MappedBuffer.device_size := 4;
     MappedBuffer.device_data := fun j =>
       default x00 ([x14; x15; x16; x17] !! Z.to_nat j) |}.

Definition heap : gmap nat BufferObject :=
  {[ 1%nat := Mapped small_mapping;
     2%nat := Mapped four_mapping;
     3%nat := Null (NullBuffer.instance 2) ]}.

(** Readable and writable. *)
Definition rw : Z := 6.

(** Two adjacent segments on two buffers. *)
Definition two_map : list AddressMap.Node :=
  [ (Interval.Range 100 103, mkSegment 1 2 rw);
    (Interval.Range 104 107, mkSegment 2 0 rw) ].

(** The first segment is longer than its buffer of four bytes. *)
Definition short_map : list AddressMap.Node :=
  [ (Interval.Range 100 105, mkSegment 2 0 rw);
    (Interval.Range 106 109, mkSegment 1 0 rw) ].


(** One segment over the entire 32-bit address space. *)
Definition whole_map : list AddressMap.Node :=
  [ (Interval.Range 0 (2 ^ 32 - 1), mkSegment 1 0 rw) ].

(** A mapping of the sixteen bytes 0, 1, ..., 15: four values of four
    bytes each. *)
Definition sixteen_mapping : MappedBuffer.t :=
  {| MappedBuffer.device_size := 16;
     MappedBuffer.device_data := fun j =>
       default x00 ([x00; x01; x02; x03; x04; x05; x06; x07;
                     x08; x09; x0a; x0b; x0c; x0d; x0e; x0f] !! Z.to_nat j) |}.

(** Three adjacent segments; the second is longer than its buffer of four
    bytes. *)
Definition stalled_map : list AddressMap.Node :=
  [ (Interval.Range 100 103, mkSegment 1 2 rw);
    (Interval.Range 104 109, mkSegment 2 0 rw);
    (Interval.Range 110 111, mkSegment 1 0 rw) ].

(** Ten addresses on the first ten bytes of a mapping that is larger than a
    32-bit address can count. *)
Definition oversized_heap : gmap nat BufferObject :=
  {[ 1%nat := Mapped large_mapping ]}.

Definition oversized_map : list AddressMap.Node :=
  [ (Interval.Range 0 9, mkSegment 1 0 rw) ].

End Examples.

(** * Properties *)

(** ** Machine integers *)

Lemma modulus_pos width : 0 < modulus width.
Proof. unfold modulus. apply Z.pow_pos_nonneg; lia. Qed.

Lemma wrap_small width x : 0 <= x < modulus width -> wrap width x = x.
Proof. intros H. unfold wrap. apply Z.mod_small. exact H. Qed.

Lemma wrap_range width x : 0 <= wrap width x < modulus width.
Proof. unfold wrap. apply Z.mod_pos_bound. apply modulus_pos. Qed.

(** ** SegmentMergePolicy *)

(** C3. For non-empty, address-contiguous intervals (the asserted
    precondition) [merge] returns, and it returns true exactly when the two
    segments have the same accessibility, refer to the identical buffer
    object and the left offset plus the size of the left interval is the
    right offset (in the address type). The segments are left as they
    were. *)
Theorem merge_true_iff width leftInterval leftSegment rightInterval rightSegment :
  Interval.isEmpty leftInterval = false ->
  Interval.isEmpty rightInterval = false ->
  wrap width (Interval.upper leftInterval + 1) = Interval.lower rightInterval ->
  exists b,
    SegmentMergePolicy.merge width leftInterval leftSegment rightInterval rightSegment
    = Some (b, leftSegment, rightSegment)
    /\ (b = true <->
        accessibility leftSegment = accessibility rightSegment
        /\ buffer leftSegment = buffer rightSegment
        /\ wrap width (offset leftSegment + Interval.size width leftInterval)
           = offset rightSegment).
Proof.
  intros Hl Hr Hadj. unfold SegmentMergePolicy.merge, ASSERT_forbid, ASSERT_require.
  rewrite Hl, Hr, Hadj, Z.eqb_refl.
  eexists. split; [reflexivity|].
  rewrite !andb_true_iff, !Z.eqb_eq, Nat.eqb_eq. tauto.
Qed.

Lemma merge_true_iff_witness :
  SegmentMergePolicy.merge 32 (Interval.Range 1000 1004) (mkSegment 1 0 6)
                              (Interval.Range 1005 1009) (mkSegment 1 5 6)
  = Some (true, mkSegment 1 0 6, mkSegment 1 5 6).
Proof.
  destruct (merge_true_iff 32 (Interval.Range 1000 1004) (mkSegment 1 0 6)
                              (Interval.Range 1005 1009) (mkSegment 1 5 6))
    as [b [Hm Hb]]; [reflexivity | reflexivity | reflexivity |].
  rewrite Hm. f_equal. f_equal. f_equal. apply Hb.
  repeat split; reflexivity.
Defined.

(** C4. For a non-empty interval and a split point strictly inside it,
    [split] returns a segment whose offset is the original offset plus
    [splitPoint - interval.lower()] (in the address type), with the same
    buffer reference and the same accessibility word, so in particular the
    same caller-defined bits 8-31; the segment passed in is left as it
    was. *)
Theorem split_advances_offset width interval segment splitPoint :
  Interval.isEmpty interval = false ->
  Interval.lower interval < splitPoint <= Interval.upper interval ->
  exists right,
    SegmentMergePolicy.split width interval segment splitPoint = Some (segment, right)
    /\ offset right = wrap width (offset segment + (splitPoint - Interval.lower interval))
    /\ buffer right = buffer segment
    /\ accessibility right = accessibility segment
    /\ Z.land (accessibility right) AddressMap.USERDEF_MASK
       = Z.land (accessibility segment) AddressMap.USERDEF_MASK.
Proof.
  intros Hne Hin. destruct interval as [|lo hi]; [discriminate|].
  simpl in Hin. unfold SegmentMergePolicy.split, ASSERT_forbid, ASSERT_require. simpl.
  assert (Hc : (lo <=? splitPoint) && (splitPoint <=? hi) = true).
  { apply andb_true_iff. split; apply Z.leb_le; lia. }
  rewrite Hc. eexists. split; [reflexivity|].
  simpl. repeat split. f_equal. lia.
Qed.

Lemma split_advances_offset_witness :
  SegmentMergePolicy.split 32 (Interval.Range 1000 1014) (mkSegment 1 0 0xabcd06) 1010
  = Some (mkSegment 1 0 0xabcd06, mkSegment 1 10 0xabcd06).
Proof.
  destruct (split_advances_offset 32 (Interval.Range 1000 1014) (mkSegment 1 0 0xabcd06) 1010)
    as [[b o a] [Hs [Ho [Hb [Ha _]]]]]; [reflexivity | simpl; lia |].
  simpl in Ho, Hb, Ha. rewrite Hs. subst. reflexivity.
Defined.

(** ** NullBuffer *)

(** C8. [write] on a null buffer returns 0, raises nothing, and leaves the
    buffer, hence its logical size, as it was, whatever the source pointer,
    the address and the count. *)
Theorem NullBuffer_write_returns_zero (V : Type) (b : NullBuffer.t)
        (mem : list V) (buf : option nat) (address n : Z) :
  exists b' k,
    NullBuffer.write b mem buf address n = Some (b', k)
    /\ k = 0
    /\ b' = b
    /\ NullBuffer.size_ b' = NullBuffer.size_ b.
Proof.
  exists b, 0. repeat split; reflexivity.
Qed.

Lemma fill_spec (V : Type) (Value : V) k : forall (mem : list V) p i,
  (p + i + k <= length mem)%nat ->
  exists mem',
    NullBuffer.fill Value mem p i k = Some mem'
    /\ length mem' = length mem
    /\ (forall j, (p + i <= j < p + i + k)%nat -> mem' !! j = Some Value)
    /\ (forall j, (j < p + i \/ p + i + k <= j)%nat -> mem' !! j = mem !! j).
Proof.
  induction k as [|k IH]; intros mem p i Hlen; simpl.
  - exists mem. split; [reflexivity|]. split; [reflexivity|].
    split; [intros j Hj; lia | intros j Hj; reflexivity].
  - destruct (decide (p + i < length mem)%nat) as [Hlt|Hge]; [|lia].
    destruct (IH (<[(p + i)%nat := Value]> mem) p (S i)) as [mem' [Hf [Hl [Hin Hout]]]].
    { rewrite length_insert. lia. }
    exists mem'. split; [exact Hf|]. rewrite length_insert in Hl.
    split; [exact Hl|]. split.
    + intros j Hj. destruct (decide (j = p + i)%nat) as [->|Hne].
      * rewrite Hout by lia. apply list_lookup_insert_eq. exact Hlt.
      * apply Hin. lia.
    + intros j Hj. rewrite Hout by lia. apply list_lookup_insert_ne. lia.
Qed.

(** C10. [read] on a null buffer of logical size [s], with a non-null
    destination, stores the default value into all [n] destination
    positions and nowhere else, and returns [min (s - address) n] when
    [address < s] and 0 otherwise; whenever fewer than [n] values are
    available the [n] stored positions exceed the returned count. *)
Theorem NullBuffer_read_fills_all width (V : Type) (Value : V) (b : NullBuffer.t)
        (mem : list V) (p : nat) (address n : Z) :
  in_range width (NullBuffer.size_ b) ->
  0 <= address ->
  0 <= n ->
  (p + Z.to_nat n <= length mem)%nat ->
  exists mem' nread,
    NullBuffer.read width Value b mem (Some p) address n = Some (mem', nread)
    /\ nread = (if address <? NullBuffer.size_ b
                then Z.min (NullBuffer.size_ b - address) n else 0)
    /\ length mem' = length mem
    /\ (forall j, (p <= j < p + Z.to_nat n)%nat -> mem' !! j = Some Value)
    /\ (forall j, (j < p \/ p + Z.to_nat n <= j)%nat -> mem' !! j = mem !! j)
    /\ (NullBuffer.available width b address < n -> nread < n).
Proof.
  intros Hs Ha Hn Hlen. unfold NullBuffer.read.
  destruct (fill_spec V Value (Z.to_nat n) mem p 0) as [mem' [Hf [Hl [Hin Hout]]]].
  { lia. }
  rewrite Hf. exists mem', (Z.min (NullBuffer.available width b address) n).
  split; [reflexivity|]. split.
  { unfold NullBuffer.available. destruct (address <? NullBuffer.size_ b) eqn:E; [|lia].
    apply Z.ltb_lt in E. rewrite wrap_small; [reflexivity|]. unfold in_range in Hs. lia. }
  split; [exact Hl|]. split.
  { intros j Hj. apply Hin. lia. }
  split.
  { intros j Hj. apply Hout. lia. }
  lia.
Qed.

Lemma NullBuffer_read_fills_all_witness :
  exists mem' nread,
    NullBuffer.read 32 x00 (NullBuffer.instance 3) [x01; x02; x03; x04; x05] (Some 1%nat) 2 3
    = Some (mem', nread)
    /\ nread = 1
    /\ mem' = [x01; x00; x00; x00; x05].
Proof.
  destruct (NullBuffer_read_fills_all 32 byte x00 (NullBuffer.instance 3)
              [x01; x02; x03; x04; x05] 1%nat 2 3)
    as [mem' [nread [Hr [Hk _]]]];
    [vm_compute; split; [discriminate | reflexivity] | lia | lia | simpl; lia |].
  exists mem', nread. split; [exact Hr|].
  vm_compute in Hr. injection Hr as <- <-. split; reflexivity.
Defined.

(** ** MappedBuffer *)


Lemma available_div width s size address :
  0 < s -> 0 <= address -> address < size -> size - address < modulus width ->
  wrap width (wrap width (wrap width size - address) / s) = (size - address) / s.
Proof.
  intros Hs Ha Hlt Hrem.
  assert (Hsub : wrap width (wrap width size - address) = size - address).
  { unfold wrap. rewrite Zminus_mod_idemp_l. apply Z.mod_small. lia. }
  rewrite Hsub. apply wrap_small. split.
  - apply Z.div_pos; lia.
  - apply Z.le_lt_trans with (size - address); [|exact Hrem].
    apply Z.div_le_upper_bound; nia.
Qed.

Lemma load_Some {X} (mem : list X) p k :
  (p + k <= length mem)%nat -> load mem p k = Some (take k (drop p mem)).
Proof. intros H. unfold load. destruct (decide _); [reflexivity | lia]. Qed.

Lemma store_Some {X} (mem : list X) p xs :
  (p + length xs <= length mem)%nat ->
  store mem p xs = Some (take p mem ++ xs ++ drop (p + length xs) mem).
Proof. intros H. unfold store. destruct (decide _); [reflexivity | lia]. Qed.

(** What [available] of a mapped buffer computes when the distance from
    [address] to the end of the mapping is representable. *)
Lemma mapped_available_spec width s (b : MappedBuffer.t) (address : Z) :
  0 < s -> 0 <= address ->
  MappedBuffer.device_size b - address < modulus width ->
  (MappedBuffer.device_size b <= address -> MappedBuffer.available width s b address = 0)
  /\ (address < MappedBuffer.device_size b ->
      MappedBuffer.available width s b address
      = (MappedBuffer.device_size b - address) / s).
Proof.
  intros Hs Ha Hrem. unfold MappedBuffer.available.
  destruct (address >=? MappedBuffer.device_size b) eqn:E.
  - apply Z.geb_le in E. split; [reflexivity | lia].
  - rewrite Z.geb_leb in E. apply Z.leb_gt in E. split; [lia|].
    intros _. apply available_div; assumption.
Qed.

(** The bytes of a transfer lie within the mapping. *)
Lemma mapped_count_fits width s (b : MappedBuffer.t) (address n : Z) :
  0 < s -> 0 <= address -> 0 <= n ->
  MappedBuffer.device_size b - address < modulus width ->
  0 <= Z.min n (MappedBuffer.available width s b address) * s
  /\ (Z.min n (MappedBuffer.available width s b address) * s = 0
      \/ address + Z.min n (MappedBuffer.available width s b address) * s
         <= MappedBuffer.device_size b).
Proof.
  intros Hs Ha Hn Hrem.
  destruct (mapped_available_spec width s b address Hs Ha Hrem) as [Hpast Hbefore].
  set (avail := MappedBuffer.available width s b address) in *.
  destruct (Z_lt_le_dec address (MappedBuffer.device_size b)) as [Hlt|Hge].
  - specialize (Hbefore Hlt).
    pose proof (Z.mul_div_le (MappedBuffer.device_size b - address) s Hs) as Hq.
    assert (0 <= avail) by (rewrite Hbefore; apply Z.div_pos; lia).
    split; [nia|]. right.
    assert (Z.min n avail * s <= avail * s) by nia. rewrite Hbefore in *. lia.
  - specialize (Hpast Hge). rewrite Hpast, Z.min_r by lia. lia.
Qed.

Lemma mapped_read_spec width s (b : MappedBuffer.t) (mem : list byte)
      (buf : nat) (address n : Z) :
  0 < s -> 0 <= address -> 0 <= n ->
  MappedBuffer.device_size b - address < modulus width ->
  (buf + Z.to_nat (Z.min n (MappedBuffer.available width s b address) * s)
   <= length mem)%nat ->
  MappedBuffer.read width s b mem buf address n
  = Some (take buf mem
            ++ (MappedBuffer.device_data b
                  <$> seqZ address (Z.min n (MappedBuffer.available width s b address) * s))
            ++ drop (buf + Z.to_nat (Z.min n (MappedBuffer.available width s b address) * s))
                 mem,
          Z.min n (MappedBuffer.available width s b address)).
Proof.
  intros Hs Ha Hn Hrem Hroom.
  destruct (mapped_count_fits width s b address n Hs Ha Hn Hrem) as [Hk0 Hkfit].
  unfold MappedBuffer.read, MappedBuffer.device_bytes.
  destruct (decide _) as [_|Hno]; [|exfalso; apply Hno; lia].
  rewrite store_Some.
  - rewrite length_fmap, length_seqZ. reflexivity.
  - rewrite length_fmap, length_seqZ. exact Hroom.
Qed.

Lemma mapped_write_spec width s (b : MappedBuffer.t) (mem : list byte)
      (buf : nat) (address n : Z) :
  0 < s -> 0 <= address -> 0 <= n ->
  MappedBuffer.device_size b - address < modulus width ->
  (buf + Z.to_nat (Z.min n (MappedBuffer.available width s b address) * s)
   <= length mem)%nat ->
  exists b',
    MappedBuffer.write width s b mem buf address n
    = Some (b', Z.min n (MappedBuffer.available width s b address))
    /\ MappedBuffer.device_size b' = MappedBuffer.device_size b
    /\ (forall j, address <= j
                  < address + Z.min n (MappedBuffer.available width s b address) * s ->
          mem !! (buf + Z.to_nat (j - address))%nat
          = Some (MappedBuffer.device_data b' j))
    /\ (forall j, ~ address <= j
                    < address + Z.min n (MappedBuffer.available width s b address) * s ->
          MappedBuffer.device_data b' j = MappedBuffer.device_data b j).
Proof.
  intros Hs Ha Hn Hrem Hroom.
  destruct (mapped_count_fits width s b address n Hs Ha Hn Hrem) as [Hk0 Hkfit].
  set (k := Z.min n (MappedBuffer.available width s b address)) in *.
  unfold MappedBuffer.write. fold k.
  rewrite load_Some by exact Hroom.
  unfold MappedBuffer.device_store.
  assert (Hlen : length (take (Z.to_nat (k * s)) (drop buf mem)) = Z.to_nat (k * s)).
  { rewrite length_take, length_drop. lia. }
  rewrite Hlen.
  destruct (decide _) as [_|Hno]; [|exfalso; apply Hno; lia].
  eexists. split; [reflexivity|]. simpl. split; [reflexivity|]. split.
  - intros j Hj. destruct (decide _) as [_|Hno]; [|lia].
    rewrite lookup_take_lt by lia. rewrite lookup_drop.
    destruct (mem !! (buf + Z.to_nat (j - address))%nat) eqn:E; [reflexivity|].
    apply lookup_ge_None in E. lia.
  - intros j Hj. destruct (decide _) as [Hyes|_]; [lia | reflexivity].
Qed.

(** X19. What [MappedBuffer] computes: [address] is taken as a byte offset
    into the mapping. When the number of bytes from [address] to the end of
    the mapping is representable in the address type, [available] returns
    the number of whole values that fit between byte [address] and the end
    of the mapping (0 at or past the end), and [read] and [write] return
    [min n (available address)] and copy exactly that many values, starting
    at byte [address] of the mapping and at [buf] in the caller's array. *)
Theorem MappedBuffer_transfers_min width s (b : MappedBuffer.t) (mem : list byte)
        (buf : nat) (address n : Z) :
  0 < s -> 0 <= address -> 0 <= n ->
  MappedBuffer.device_size b - address < modulus width ->
  (buf + Z.to_nat (Z.min n (MappedBuffer.available width s b address) * s)
   <= length mem)%nat ->
  let avail := MappedBuffer.available width s b address in
  let k := Z.min n avail in
  (MappedBuffer.device_size b <= address -> avail = 0)
  /\ (address < MappedBuffer.device_size b ->
      avail * s <= MappedBuffer.device_size b - address < (avail + 1) * s)
  /\ (exists mem',
        MappedBuffer.read width s b mem buf address n = Some (mem', k)
        /\ mem' = take buf mem
                  ++ (MappedBuffer.device_data b <$> seqZ address (k * s))
                  ++ drop (buf + Z.to_nat (k * s)) mem)
  /\ (exists b',
        MappedBuffer.write width s b mem buf address n = Some (b', k)
        /\ MappedBuffer.device_size b' = MappedBuffer.device_size b
        /\ (forall j, address <= j < address + k * s ->
              mem !! (buf + Z.to_nat (j - address))%nat
              = Some (MappedBuffer.device_data b' j))
        /\ (forall j, ~ address <= j < address + k * s ->
              MappedBuffer.device_data b' j = MappedBuffer.device_data b j)).
Proof.
  intros Hs Ha Hn Hrem Hroom avail k.
  destruct (mapped_available_spec width s b address Hs Ha Hrem) as [Hpast Hbefore].
  split; [exact Hpast|]. split.
  { intros Hlt. subst avail. rewrite (Hbefore Hlt).
    pose proof (Z.mul_div_le (MappedBuffer.device_size b - address) s Hs).
    pose proof (Z.mul_succ_div_gt (MappedBuffer.device_size b - address) s Hs).
    lia. }
  split.
  - eexists. split; [|reflexivity].
    apply mapped_read_spec; assumption.
  - apply mapped_write_spec; assumption.
Qed.

Lemma MappedBuffer_transfers_min_witness :
  exists mem',
    MappedBuffer.read 32 2 Examples.small_mapping [x00; x00; x00; x00] 0 1 5
    = Some (mem', 2)
    /\ mem' = [x0b; x0c; x0d; x0e].
Proof.
  destruct (MappedBuffer_transfers_min 32 2 Examples.small_mapping
              [x00; x00; x00; x00] 0%nat 1 5)
    as (_ & _ & (mem' & Hr & Hm) & _);
    [lia | lia | lia | vm_compute; reflexivity | vm_compute; lia |].
  exists mem'. split; [exact Hr|]. rewrite Hm. vm_compute. reflexivity.
Defined.

(** C7 (the code at the failing inputs). [available] does not count the
    values accessible from [address] on. Over a mapping of sixteen bytes,
    four values of four bytes, it returns 3 at address 2 and 3 at address 4,
    the end of the buffer, where a [NullBuffer] of four values returns 2 and
    0: the address is used as a byte offset ([device_.data() + address]),
    and a [read] of four values at address 2 copies the twelve bytes 2 to 13
    of the mapping. Over a mapping of [2^32 + 8] bytes with 32-bit addresses
    it returns 2 at address 0, although a third value lies before the end:
    the size of the mapping is narrowed to the address type before the
    subtraction; a [read] of 3 values returns 2. *)
Theorem MappedBuffer_available_miscounts :
  MappedBuffer.available 32 4 Examples.sixteen_mapping 2 = 3
  /\ MappedBuffer.available 32 4 Examples.sixteen_mapping 4 = 3
  /\ NullBuffer.available 32 (NullBuffer.instance 4) 2 = 2
  /\ NullBuffer.available 32 (NullBuffer.instance 4) 4 = 0
  /\ MappedBuffer.read 32 4 Examples.sixteen_mapping (replicate 16 xff) 0 2 4
     = Some ([x02; x03; x04; x05; x06; x07; x08; x09; x0a; x0b; x0c; x0d;
              xff; xff; xff; xff], 3)
  /\ MappedBuffer.available 32 4 Examples.large_mapping 0 = 2
  /\ (2 + 1) * 4 <= MappedBuffer.device_size Examples.large_mapping - 0
  /\ MappedBuffer.read 32 4 Examples.large_mapping (replicate 12 x00) 0 0 3
     = Some (replicate 12 x00, 2).
Proof.
  repeat split; try (vm_compute; reflexivity).
  vm_compute. discriminate.
Qed.

(** ** AddressMap: availability *)

Lemma available_loop_nonempty width start req proh found : forall lo hi,
  Interval.isEmpty (AddressMap.available_loop width start req proh found
                      (Interval.Range lo hi)) = false.
Proof.
  induction found as [|n next IH]; intros lo hi; simpl; [reflexivity|].
  destruct (negb _); [reflexivity|].
  destruct (negb _); [reflexivity|]. apply IH.
Qed.

(** The node that contains [start] is never put to the access filter. *)
Lemma available_mapped_nonempty width m start req proh n next :
  AddressMap.find m start = n :: next ->
  Interval.isEmpty (AddressMap.available width m start req proh) = false.
Proof.
  intros Hf. unfold AddressMap.available. rewrite Hf. apply available_loop_nonempty.
Qed.

(** C1 (the code at the failing input). Over a map whose only segment
    [[0, 9]] has no accessibility bit, [available 5] with [READABLE]
    required returns [[5, 9]]: the segment fails the filter, yet the result
    is not empty. On the same map, [read] with the same filter transfers
    nothing. *)
Theorem available_ignores_filter_at_start :
  AddressMap.isAccessAllowed 0 AddressMap.READABLE 0 = false
  /\ AddressMap.available 32 Examples.restricted_map 5 AddressMap.READABLE 0
     = Interval.Range 5 9
  /\ AddressMap.read 32 Examples.restricted_heap Examples.restricted_map
       [x01; x01; x01; x01; x01] 0 (Interval.Range 5 9) AddressMap.READABLE 0
     = Some (Interval.Empty, [x01; x01; x01; x01; x01], []).
Proof.
  split; [reflexivity|]. split; [reflexivity|]. reflexivity.
Qed.

(** ** AddressMap: the traversal of read and write *)

(** Case analysis on the outermost test of a loop body in [H]. *)
Ltac loop_case H E :=
  match type of H with
  | (match ?X with _ => _ end) = _ => destruct X eqn:E
  | (if ?X then _ else _) = _ => destruct X eqn:E
  | (let (_, _) := ?X in _) = _ => destruct X eqn:E
  end.

Lemma not_passes_access width where_ req proh acc n :
  negb (AddressMap.isAccessAllowed (accessibility (AddressMap.value n)) req proh) = true ->
  ~ AddressMap.passes width where_ req proh acc n.
Proof.
  intros H [Ha _]. rewrite Ha in H. discriminate.
Qed.

Lemma not_passes_part width where_ req proh acc n :
  Interval.isEmpty (Interval.intersection where_ (AddressMap.key n))
  || (negb (Interval.isEmpty acc)
      && negb (wrap width (Interval.upper acc + 1)
               =? Interval.lower (Interval.intersection where_ (AddressMap.key n)))) = true ->
  ~ AddressMap.passes width where_ req proh acc n.
Proof.
  intros H (_ & Hne & Hgap). apply orb_true_iff in H. destruct H as [H|H].
  - congruence.
  - apply andb_true_iff in H. destruct H as [H1 H2].
    apply negb_true_iff in H1, H2. apply Z.eqb_neq in H2.
    destruct Hgap; congruence.
Qed.

Lemma passes_intro width where_ req proh acc n :
  negb (AddressMap.isAccessAllowed (accessibility (AddressMap.value n)) req proh) = false ->
  Interval.isEmpty (Interval.intersection where_ (AddressMap.key n))
  || (negb (Interval.isEmpty acc)
      && negb (wrap width (Interval.upper acc + 1)
               =? Interval.lower (Interval.intersection where_ (AddressMap.key n)))) = false ->
  AddressMap.passes width where_ req proh acc n.
Proof.
  intros Ha H. apply negb_false_iff in Ha. apply orb_false_iff in H.
  destruct H as [Hne H]. split; [exact Ha|]. split; [exact Hne|].
  apply andb_false_iff in H. destruct H as [H|H]; apply negb_false_iff in H.
  - left. exact H.
  - right. apply Z.eqb_eq. exact H.
Qed.

Ltac loop_traversal IH :=
  let H := fresh "H" in
  intros ? ? ? ? ? ? ? H; simpl in H;
  let Ea := fresh "Ea" in let Ep := fresh "Ep" in
  let Eh := fresh "Eh" in let Eb := fresh "Eb" in let Ek := fresh "Ek" in
  loop_case H Ea;
  [ injection H as <- <- <-; exists []; split;
    [ symmetry; apply app_nil_r
    | apply AddressMap.traversal_stop; eapply not_passes_access; exact Ea ]
  | loop_case H Ep;
    [ injection H as <- <- <-; exists []; split;
      [ symmetry; apply app_nil_r
      | apply AddressMap.traversal_stop; eapply not_passes_part; exact Ep ]
    | pose proof (passes_intro _ _ _ _ _ _ Ea Ep);
      loop_case H Eh; [|discriminate H];
      loop_case H Eb; [|discriminate H];
      match type of Eb with _ = Some ?pr => destruct pr end;
      loop_case H Ek;
      [ injection H as <- <- <-; eexists; split; [reflexivity|];
        apply AddressMap.traversal_short; [assumption|];
        apply negb_true_iff in Ek; apply Z.eqb_neq in Ek; exact Ek
      | apply negb_false_iff in Ek; apply Z.eqb_eq in Ek;
        apply IH in H; destruct H as [new [-> Ht]];
        eexists; split; [rewrite <- app_assoc; reflexivity|];
        subst; apply AddressMap.traversal_full; assumption ] ] ].

Lemma read_loop_traversal width (V B : Type) `{!Buffer width V B}
      h found where_ req proh :
  forall (mem : list V) buf retval log0 res mem' log,
    AddressMap.read_loop width h found where_ req proh mem buf retval log0
    = Some (res, mem', log) ->
    exists new, log = log0 ++ new
                /\ AddressMap.Traversal width where_ req proh retval found new res.
Proof.
  induction found as [|n next IH].
  - intros mem buf retval log0 res mem' log H. injection H as <- <- <-.
    exists []. split; [symmetry; apply app_nil_r | constructor].
  - loop_traversal IH.
Qed.

Lemma write_loop_traversal width (V B : Type) `{!Buffer width V B}
      found where_ req proh (mem : list V) :
  forall h buf retval log0 res h' log,
    AddressMap.write_loop width h found where_ req proh mem buf retval log0
    = Some (res, h', log) ->
    exists new, log = log0 ++ new
                /\ AddressMap.Traversal width where_ req proh retval found new res.
Proof.
  induction found as [|n next IH].
  - intros h buf retval log0 res h' log H. injection H as <- <- <-.
    exists []. split; [symmetry; apply app_nil_r | constructor].
  - loop_traversal IH.
Qed.

Lemma above_weaken width m : forall b b',
  b' <= b -> AddressMap.above width b m -> AddressMap.above width b' m.
Proof.
  destruct m as [|n rest]; intros b b' Hle H; simpl in *; [exact I|].
  destruct (AddressMap.key n); [exact H|]. intuition lia.
Qed.

Lemma find_above width m a : forall b,
  AddressMap.above width b m -> AddressMap.above width b (AddressMap.find m a).
Proof.
  induction m as [|n rest IH]; intros b H; simpl; [exact I|].
  destruct (Interval.isContaining (AddressMap.key n) a); [exact H|].
  simpl in H. destruct (AddressMap.key n) as [|lo hi]; [contradiction|].
  apply IH. apply above_weaken with hi; [lia | tauto].
Qed.

Lemma transferred_nil a : ~ AddressMap.transferred [] a.
Proof. intros (t & Hin & _). inversion Hin. Qed.

Lemma transferred_cons t log a :
  AddressMap.transferred (t :: log) a <->
  (Interval.lower (AddressMap.t_part t) <= a
   < Interval.lower (AddressMap.t_part t) + AddressMap.t_returned t)
  \/ AddressMap.transferred log a.
Proof.
  unfold AddressMap.transferred. split.
  - intros (t' & Hin & Ha). apply elem_of_cons in Hin. destruct Hin as [->|Hin].
    + left. exact Ha.
    + right. exists t'. split; assumption.
  - intros [Ha|(t' & Hin & Ha)].
    + exists t. split; [apply elem_of_cons; left; reflexivity | exact Ha].
    + exists t'. split; [apply elem_of_cons; right; exact Hin | exact Ha].
Qed.

Lemma traversal_transferred width wl wu req proh acc found new res :
  AddressMap.Traversal width (Interval.Range wl wu) req proh acc found new res ->
  0 <= wl -> wu - wl + 1 < modulus width ->
  forall b,
    AddressMap.above width b found ->
    progress wl wu b acc ->
    Forall (fun t => 0 <= AddressMap.t_returned t
                     <= Interval.size width (AddressMap.t_part t)) new ->
    (forall a, Interval.elem a res <-> Interval.elem a acc \/ AddressMap.transferred new a)
    /\ (forall a, Interval.elem a res -> Interval.elem a acc \/ wl <= a <= wu).
Proof.
  intros Ht Hwl Hsz.
  induction Ht as [acc|acc n next Hstop|acc n next k Hp Hk|acc n next log res Hp Ht IH];
    intros b Hab Hpr Hcnt.
  - split; [|tauto]. intros a. pose proof (transferred_nil a). tauto.
  - split; [|tauto]. intros a. pose proof (transferred_nil a). tauto.
  - destruct n as [ky seg]. destruct Hp as (_ & Hne & Hgap).
    simpl in Hab. unfold AddressMap.key in *. simpl in *.
    destruct ky as [|lo hi]; [contradiction|].
    destruct Hab as (Hb & Hlo & Hhi & _).
    apply Forall_cons in Hcnt. destruct Hcnt as [Hk0 _]. simpl in Hk0.
    unfold Interval.intersection in *.
    destruct (Z.max wl lo <=? Z.min wu hi) eqn:El; [|discriminate].
    apply Z.leb_le in El. simpl in *.
    rewrite wrap_small in Hk0, Hk by lia.
    assert (Hev : forall a, AddressMap.transferred
                    [AddressMap.transfer_at width (Interval.Range wl wu) (Interval.Range lo hi, seg) k] a
                  <-> Z.max wl lo <= a < Z.max wl lo + k).
    { intros a. rewrite transferred_cons. pose proof (transferred_nil a).
      unfold AddressMap.transfer_at, AddressMap.key. simpl.
      unfold Interval.intersection.
      destruct (Z.max wl lo <=? Z.min wu hi) eqn:El'; [|lia]. simpl. tauto. }
    unfold Interval.baseSize. destruct (k =? 0) eqn:Ek0.
    + apply Z.eqb_eq in Ek0. subst k.
      assert (Hh : Interval.hull acc Interval.Empty = acc) by (destruct acc; reflexivity).
      rewrite Hh. split; [|tauto]. intros a. rewrite Hev.
      split; [tauto | intros [?|?]; [assumption | lia]].
    + apply Z.eqb_neq in Ek0. rewrite wrap_small by lia.
      destruct Hpr as [->|(a0 & -> & Ha0 & Ha0b & Hbu)]; simpl.
      * split; intros a; [rewrite Hev|]; intuition lia.
      * destruct Hgap as [Hgap|Hgap]; [discriminate|]. simpl in Hgap.
        rewrite wrap_small in Hgap by lia.
        split; intros a; [rewrite Hev|]; intuition lia.
  - destruct n as [ky seg]. destruct Hp as (_ & Hne & Hgap).
    simpl in Hab. unfold AddressMap.key in *. simpl in *.
    destruct ky as [|lo hi]; [contradiction|].
    destruct Hab as (Hb & Hlo & Hhi & Hnext).
    apply Forall_cons in Hcnt. destruct Hcnt as [_ Hcnt].
    assert (Hev : forall a, AddressMap.transferred
                    (AddressMap.transfer_at width (Interval.Range wl wu) (Interval.Range lo hi, seg)
                       (Interval.size width
                          (Interval.intersection (Interval.Range wl wu) (Interval.Range lo hi)))
                     :: log) a
                  <-> Z.max wl lo <= a <= Z.min wu hi \/ AddressMap.transferred log a).
    { intros a. rewrite transferred_cons.
      unfold AddressMap.transfer_at, AddressMap.key. simpl.
      unfold Interval.intersection in *.
      destruct (Z.max wl lo <=? Z.min wu hi) eqn:El'; [|discriminate]. simpl.
      apply Z.leb_le in El'. rewrite wrap_small by lia. intuition lia. }
    unfold Interval.intersection in *.
    destruct (Z.max wl lo <=? Z.min wu hi) eqn:El; [|discriminate].
    apply Z.leb_le in El. simpl in *.
    destruct (IH (Z.min wu hi)) as [IH1 IH2].
    { apply above_weaken with hi; [lia | exact Hnext]. }
    { right. destruct Hpr as [->|(a0 & -> & Ha0 & Ha0b & Hbu)]; simpl.
      - exists (Z.max wl lo). split; [reflexivity | lia].
      - destruct Hgap as [Hgap|Hgap]; [discriminate|]. simpl in Hgap.
        rewrite wrap_small in Hgap by lia.
        exists a0. split; [f_equal; lia | lia]. }
    { exact Hcnt. }
    destruct Hpr as [->|(a0 & -> & Ha0 & Ha0b & Hbu)]; simpl in *.
    + split; intros a; [rewrite Hev, IH1 | intros Ha; apply IH2 in Ha]; simpl in *; intuition lia.
    + destruct Hgap as [Hgap|Hgap]; [discriminate|]. simpl in Hgap.
      rewrite wrap_small in Hgap by lia.
      split; intros a; [rewrite Hev, IH1 | intros Ha; apply IH2 in Ha]; simpl in *; intuition lia.
Qed.

Lemma size_nonneg width i : 0 <= Interval.size width i.
Proof. destruct i; simpl; [lia | apply wrap_range]. Qed.

Ltac loop_counts IH Hlaw :=
  let H := fresh "H" in let Hlog := fresh "Hlog" in
  intros ? ? ? ? ? ? ? H Hlog; simpl in H;
  let Ea := fresh "Ea" in let Ep := fresh "Ep" in
  let Eh := fresh "Eh" in let Eb := fresh "Eb" in let Ek := fresh "Ek" in
  loop_case H Ea; [injection H as <- <- <-; exact Hlog|];
  loop_case H Ep; [injection H as <- <- <-; exact Hlog|];
  loop_case H Eh; [|discriminate H];
  loop_case H Eb; [|discriminate H];
  match type of Eb with _ = Some ?pr => destruct pr end;
  apply Hlaw in Eb; [|apply size_nonneg];
  loop_case H Ek;
  [ injection H as <- <- <-
  | apply IH in H; [exact H|] ];
  (apply Forall_app; split; [exact Hlog|]; apply Forall_cons; split; [exact Eb | apply Forall_nil_2]).

Lemma read_loop_counts width (V B : Type) `{!Buffer width V B}
      h found where_ req proh :
  bounded_transfers width V B ->
  forall (mem : list V) buf retval log0 res mem' log,
    AddressMap.read_loop width h found where_ req proh mem buf retval log0
    = Some (res, mem', log) ->
    Forall (counted width) log0 -> Forall (counted width) log.
Proof.
  intros [Hlaw _]. induction found as [|n next IH].
  - intros mem buf retval log0 res mem' log H Hlog. injection H as <- <- <-. exact Hlog.
  - loop_counts IH Hlaw.
Qed.

Lemma write_loop_counts width (V B : Type) `{!Buffer width V B}
      found where_ req proh (mem : list V) :
  bounded_transfers width V B ->
  forall h buf retval log0 res h' log,
    AddressMap.write_loop width h found where_ req proh mem buf retval log0
    = Some (res, h', log) ->
    Forall (counted width) log0 -> Forall (counted width) log.
Proof.
  intros [_ Hlaw]. induction found as [|n next IH].
  - intros h buf retval log0 res h' log H Hlog. injection H as <- <- <-. exact Hlog.
  - loop_counts IH Hlaw.
Qed.


Lemma NullBuffer_available_nonneg width b start : 0 <= NullBuffer.available width b start.
Proof.
  unfold NullBuffer.available. destruct (start <? NullBuffer.size_ b); [|lia].
  apply wrap_range.
Qed.

Lemma MappedBuffer_available_nonneg width s b address :
  0 <= MappedBuffer.available width s b address.
Proof.
  unfold MappedBuffer.available.
  destruct (address >=? MappedBuffer.device_size b); [lia|]. apply wrap_range.
Qed.

(** The two buffers of the sources keep to the contract's bound. *)
Lemma BufferObject_bounded width : bounded_transfers width byte BufferObject.
Proof.
  split.
  - intros [b|b] mem p a n mem' k Hn H; simpl in H.
    + unfold NullBuffer.read in H.
      destruct (NullBuffer.fill _ _ _ _ _); [|discriminate].
      injection H as _ <-. pose proof (NullBuffer_available_nonneg width b a). lia.
    + unfold MappedBuffer.read in H.
      destruct (MappedBuffer.device_bytes _ _ _); [|discriminate].
      destruct (store _ _ _); [|discriminate].
      injection H as _ <-. pose proof (MappedBuffer_available_nonneg width 1 b a). lia.
  - intros [b|b] mem p a n b' k Hn H; simpl in H.
    + injection H as _ <-. lia.
    + unfold MappedBuffer.write in H.
      destruct (load _ _ _); [|discriminate].
      destruct (MappedBuffer.device_store _ _ _); [|discriminate].
      injection H as _ <-. pose proof (MappedBuffer_available_nonneg width 1 b a). lia.
Qed.


(** C5 (the code at the failing input). A map holds one readable and
    writable segment over the entire 32-bit address space and the request is
    the entire address space. The size of the intersection is 0 in the
    address type, so the buffer is asked for no value and returns 0, which
    the loop takes for a complete transfer: [read] returns the entire
    address space with the caller's array unchanged, [write] returns the
    entire address space with the buffer unchanged, and no address was
    transferred by the single buffer call either of them made. *)
Theorem entire_space_returned_untransferred :
  AddressMap.read 32 Examples.heap Examples.whole_map [x01; x01; x01; x01] 0
    (Interval.Range 0 (2 ^ 32 - 1)) AddressMap.READABLE 0
  = Some (Interval.Range 0 (2 ^ 32 - 1), [x01; x01; x01; x01],
          [AddressMap.mkTransfer (Interval.Range 0 (2 ^ 32 - 1)) 1 0 0])
  /\ match AddressMap.write 32 Examples.heap Examples.whole_map [x01; x01; x01; x01] 0
             (Interval.Range 0 (2 ^ 32 - 1)) AddressMap.WRITABLE 0 with
     | Some (res, h', log) =>
         res = Interval.Range 0 (2 ^ 32 - 1)
         /\ log = [AddressMap.mkTransfer (Interval.Range 0 (2 ^ 32 - 1)) 1 0 0]
         /\ (fun j => cell_at h' (1%nat, j)) <$> [0; 1; 2; 3; 4; 5]
            = Some <$> [x0a; x0b; x0c; x0d; x0e; x0f]
     | None => False
     end
  /\ Interval.elem 0 (Interval.Range 0 (2 ^ 32 - 1))
  /\ (forall a, ~ AddressMap.transferred
                    [AddressMap.mkTransfer (Interval.Range 0 (2 ^ 32 - 1)) 1 0 0] a).
Proof.
  split; [vm_compute; reflexivity|].
  split; [vm_compute; repeat split|].
  split; [simpl; lia|].
  intros a (t & Hin & Ha). apply list_elem_of_singleton in Hin. subst t.
  simpl in Ha. lia.
Qed.

(** C2 (the code at the failing input). On the same map and request, the
    buffer of the only node transfers 0 values, fewer than the [2^32]
    addresses of the intersection. The accumulated interval (empty)
    extended by this count at the lower bound of the intersection is the
    empty interval, yet [read] and [write] return the entire address space:
    the comparison of the count with [part.size()], which is 0 in the
    address type, does not see the short transfer. *)
Theorem entire_space_short_transfer_missed :
  let whole := Interval.Range 0 (2 ^ 32 - 1) in
  let t := AddressMap.mkTransfer whole 1 0 0 in
  Interval.intersection whole
    (AddressMap.key (Interval.Range 0 (2 ^ 32 - 1), mkSegment 1 0 Examples.rw))
  = AddressMap.t_part t
  /\ AddressMap.t_returned t < span (AddressMap.t_part t)
  /\ Interval.hull (AddressMap.accumulated [])
       (Interval.baseSize 32 (Interval.lower (AddressMap.t_part t))
                          (AddressMap.t_returned t))
     = Interval.Empty
  /\ AddressMap.read 32 Examples.heap Examples.whole_map [x01; x01; x01; x01] 0
       whole AddressMap.READABLE 0
     = Some (whole, [x01; x01; x01; x01], [t])
  /\ match AddressMap.write 32 Examples.heap Examples.whole_map [x01; x01; x01; x01] 0
             whole AddressMap.WRITABLE 0 with
     | Some (res, _, log) => res = whole /\ log = [t]
     | None => False
     end.
Proof.
  repeat split; vm_compute; reflexivity.
Qed.

(** ** AddressMap: write followed by read *)

Lemma above_elem width m : forall b n,
  AddressMap.above width b m -> n ∈ m ->
  exists lo hi, AddressMap.key n = Interval.Range lo hi
                /\ b < lo /\ lo <= hi /\ hi < modulus width.
Proof.
  induction m as [|x rest IH]; intros b n Hab Hin; [inversion Hin|].
  simpl in Hab. destruct (AddressMap.key x) as [|lo hi] eqn:Ex; [contradiction|].
  destruct Hab as (Hb & Hlo & Hhi & Hrest).
  apply elem_of_cons in Hin. destruct Hin as [->|Hin].
  - exists lo, hi. auto.
  - destruct (IH hi n Hrest Hin) as (lo' & hi' & Hk & Hb' & Hlo' & Hhi').
    exists lo', hi'. split; [exact Hk|]. lia.
Qed.

Lemma isContaining_Range lo hi a :
  Interval.isContaining (Interval.Range lo hi) a = true <-> lo <= a <= hi.
Proof. simpl. rewrite andb_true_iff, !Z.leb_le. tauto. Qed.





Lemma read_loop_step width (V B : Type) `{!Buffer width V B}
      (h : gmap nat B) n next where_ req proh (mem mem' : list V) buf retval log b :
  AddressMap.isAccessAllowed (accessibility (AddressMap.value n)) req proh = true ->
  Interval.isEmpty (Interval.intersection where_ (AddressMap.key n)) = false ->
  (Interval.isEmpty retval = true
   \/ wrap width (Interval.upper retval + 1)
      = Interval.lower (Interval.intersection where_ (AddressMap.key n))) ->
  h !! buffer (AddressMap.value n) = Some b ->
  buf_read b mem buf
    (AddressMap.t_offset (AddressMap.transfer_at width where_ n 0))
    (Interval.size width (Interval.intersection where_ (AddressMap.key n)))
  = Some (mem', Interval.size width (Interval.intersection where_ (AddressMap.key n))) ->
  AddressMap.read_loop width h (n :: next) where_ req proh mem buf retval log
  = AddressMap.read_loop width h next where_ req proh
      mem' (buf + Z.to_nat (Interval.size width
                              (Interval.intersection where_ (AddressMap.key n))))%nat
      (Interval.hull retval (Interval.intersection where_ (AddressMap.key n)))
      (log ++ [AddressMap.transfer_at width where_ n
                 (Interval.size width (Interval.intersection where_ (AddressMap.key n)))]).
Proof.
  intros Ha Hne Hgap Hh Hr. simpl. rewrite Ha, Hne. simpl.
  assert (Hg : negb (Interval.isEmpty retval)
               && negb (wrap width (Interval.upper retval + 1)
                        =? Interval.lower (Interval.intersection where_ (AddressMap.key n)))
               = false).
  { destruct Hgap as [-> | ->]; [reflexivity|]. rewrite Z.eqb_refl. apply andb_false_r. }
  rewrite Hg, Hh. simpl in Hr. rewrite Hr, Z.eqb_refl. reflexivity.
Qed.


Lemma read_loop_beyond width (V B : Type) `{!Buffer width V B}
      (h : gmap nat B) found wl wu req proh (mem : list V) buf retval log :
  AddressMap.above width wu found ->
  AddressMap.read_loop width h found (Interval.Range wl wu) req proh mem buf retval log
  = Some (retval, mem, log).
Proof.
  destruct found as [|n next]; intros Hab; [reflexivity|]. simpl in *.
  destruct (negb _); [reflexivity|].
  destruct (AddressMap.key n) as [|lo hi]; [contradiction|].
  simpl. destruct (Z.max wl lo <=? Z.min wu hi) eqn:E; [|reflexivity].
  apply Z.leb_le in E. lia.
Qed.






Lemma isContaining_Range_false lo hi a :
  hi < a -> Interval.isContaining (Interval.Range lo hi) a = false.
Proof.
  intros H. simpl. apply andb_false_iff. right. apply Z.leb_gt. exact H.
Qed.








Lemma find_head m a f rest :
  AddressMap.find m a = f :: rest -> Interval.isContaining (AddressMap.key f) a = true.
Proof.
  induction m as [|x m IH]; simpl; [discriminate|].
  destruct (Interval.isContaining (AddressMap.key x) a) eqn:E.
  - intros H. injection H as <- _. exact E.
  - exact IH.
Qed.

(** [find] only skips nodes that lie entirely below the address. *)
Lemma find_keeps width wl m : forall b,
  AddressMap.above width b m ->
  (exists n, n ∈ m /\ Interval.isContaining (AddressMap.key n) wl = true) ->
  forall a, wl <= a ->
    AddressMap.backing (AddressMap.find m wl) a = AddressMap.backing m a
    /\ (forall n, n ∈ m -> Interval.isContaining (AddressMap.key n) a = true ->
                  n ∈ AddressMap.find m wl).
Proof.
  induction m as [|x m IH]; intros b Hab (n0 & Hin0 & Hc0) a Ha; [inversion Hin0|].
  simpl. destruct (Interval.isContaining (AddressMap.key x) wl) eqn:Ex.
  - split; [reflexivity | auto].
  - simpl in Hab. destruct (AddressMap.key x) as [|lo hi] eqn:Ek; [contradiction|].
    destruct Hab as (Hb & Hlo & Hhi & Hrest).
    apply elem_of_cons in Hin0. destruct Hin0 as [->|Hin0]; [congruence|].
    destruct (above_elem _ _ _ _ Hrest Hin0) as (lo0 & hi0 & Hk0 & Hb0 & Hlo0 & Hhi0).
    pose proof Hc0 as Hc0'. rewrite Hk0 in Hc0. apply isContaining_Range in Hc0.
    assert (Hxa : Interval.isContaining (Interval.Range lo hi) a = false).
    { apply isContaining_Range_false. lia. }
    destruct (IH hi Hrest (ex_intro _ n0 (conj Hin0 Hc0')) a Ha) as [IH1 IH2].
    split.
    + rewrite IH1. rewrite Hxa. reflexivity.
    + intros n Hin Hc. apply elem_of_cons in Hin. destruct Hin as [->|Hin].
      * rewrite Ek in Hc. congruence.
      * apply IH2; assumption.
Qed.








(** The size of the mapping has to be representable for the round trip: a
    segment over [[0, 9]] on the first ten bytes of a mapping of [2^32 + 8]
    bytes is within its buffer, yet a [write] of ten values stops after
    eight, because [MappedBuffer::available] narrows the size of the
    mapping to 8. *)
Lemma oversized_mapping_short_write :
  match AddressMap.write 32 Examples.oversized_heap Examples.oversized_map
          (replicate 10 x01) 0 (Interval.Range 0 9) AddressMap.WRITABLE 0 with
  | Some (res, _, log) =>
      res = Interval.Range 0 7
      /\ log = [AddressMap.mkTransfer (Interval.Range 0 9) 1 0 8]
  | None => False
  end.
Proof. vm_compute. split; reflexivity. Qed.

(** * Further properties of the sources *)

(** ** SegmentMergePolicy: split and merge together *)

(** X1. The two pieces of a split merge again: for an interval [[lo, hi]] of
    the address domain and a split point strictly inside it, [split]
    returns a right-hand segment that [merge] accepts as the continuation
    of the original segment truncated to [[lo, splitPoint - 1]]. *)
Theorem split_then_merge width lo hi segment splitPoint :
  0 <= lo -> lo < splitPoint <= hi -> hi < modulus width ->
  exists right,
    SegmentMergePolicy.split width (Interval.Range lo hi) segment splitPoint
    = Some (segment, right)
    /\ SegmentMergePolicy.merge width
         (Interval.Range lo (splitPoint - 1)) segment
         (Interval.Range splitPoint hi) right
       = Some (true, segment, right).
Proof.
  intros Hlo Hsp Hhi.
  unfold SegmentMergePolicy.split, SegmentMergePolicy.merge,
    ASSERT_forbid, ASSERT_require.
  cbn [Interval.isEmpty Interval.isContaining Interval.lower Interval.upper
       Interval.size].
  replace ((lo <=? splitPoint) && (splitPoint <=? hi)) with true
    by (symmetry; apply andb_true_iff; split; apply Z.leb_le; lia).
  eexists. split; [reflexivity|].
  replace (splitPoint - 1 + 1) with splitPoint by lia.
  rewrite (wrap_small width splitPoint) by lia.
  rewrite Z.eqb_refl. cbn [set_offset accessibility buffer offset].
  rewrite Z.eqb_refl, Nat.eqb_refl.
  replace (splitPoint - 1 - lo + 1) with (splitPoint - lo) by lia.
  replace (wrap width (offset segment + wrap width (splitPoint - lo)))
    with (wrap width (offset segment + splitPoint - lo)).
  - rewrite Z.eqb_refl. reflexivity.
  - unfold wrap. rewrite Zplus_mod_idemp_r. f_equal. lia.
Qed.

Lemma split_then_merge_witness :
  exists right,
    SegmentMergePolicy.split 32 (Interval.Range 1000 1014) (mkSegment 1 0 6) 1005
    = Some (mkSegment 1 0 6, right)
    /\ SegmentMergePolicy.merge 32
         (Interval.Range 1000 (1005 - 1)) (mkSegment 1 0 6)
         (Interval.Range 1005 1014) right
       = Some (true, mkSegment 1 0 6, right).
Proof.
  apply (split_then_merge 32 1000 1014 (mkSegment 1 0 6) 1005);
    [lia | lia | vm_compute; reflexivity].
Defined.

(** ** AddressMap: the access filter *)

Lemma land_absorbs a b :
  Z.land a b = b <-> (forall i, Z.testbit b i = true -> Z.testbit a i = true).
Proof.
  split.
  - intros H i Hb. rewrite <- H, Z.land_spec in Hb.
    apply andb_true_iff in Hb. tauto.
  - intros H. apply Z.bits_inj'. intros i _. rewrite Z.land_spec.
    destruct (Z.testbit b i) eqn:E; [|apply andb_false_r].
    rewrite (H i E). reflexivity.
Qed.

Lemma unsigned_not_bits has i :
  Z.testbit (wrap 32 (Z.lnot has)) i
  = if decide (0 <= i < 32) then negb (Z.testbit has i) else false.
Proof.
  unfold wrap. change (modulus 32) with (2 ^ 32).
  destruct (decide (0 <= i < 32)) as [Hi|Hi].
  - rewrite Z.mod_pow2_bits_low by lia. apply Z.lnot_spec. lia.
  - destruct (Z_lt_le_dec i 0) as [Hneg|Hpos].
    + apply Z.testbit_neg_r. exact Hneg.
    + apply Z.mod_pow2_bits_high. lia.
Qed.

Lemma high_bits_clear x i : 0 <= x < 2 ^ 32 -> 32 <= i -> Z.testbit x i = false.
Proof.
  intros Hx Hi. rewrite <- (Z.mod_small x (2 ^ 32)) by exact Hx.
  apply Z.mod_pow2_bits_high. lia.
Qed.

(** X2. The filter bit by bit: for a 32-bit [prohibited] word,
    [isAccessAllowed] holds exactly when every required bit is set in the
    accessibility and every prohibited bit is clear in it. *)
Theorem isAccessAllowed_bits has required prohibited :
  0 <= prohibited < 2 ^ 32 ->
  AddressMap.isAccessAllowed has required prohibited = true
  <-> (forall i, Z.testbit required i = true -> Z.testbit has i = true)
      /\ (forall i, Z.testbit prohibited i = true -> Z.testbit has i = false).
Proof.
  intros Hp. unfold AddressMap.isAccessAllowed.
  rewrite andb_true_iff, !Z.eqb_eq, !land_absorbs.
  split; intros [Hr Hn]; (split; [exact Hr|]); intros i Hi.
  - specialize (Hn i Hi). rewrite unsigned_not_bits in Hn.
    destruct (decide (0 <= i < 32)); [|discriminate].
    apply negb_true_iff in Hn. exact Hn.
  - rewrite unsigned_not_bits. destruct (decide (0 <= i < 32)) as [Hin|Hout].
    + rewrite (Hn i Hi). reflexivity.
    + destruct (Z_lt_le_dec i 0) as [Hneg|Hpos].
      * rewrite Z.testbit_neg_r in Hi by exact Hneg. discriminate.
      * rewrite high_bits_clear in Hi by lia. discriminate.
Qed.

Lemma isAccessAllowed_bits_witness :
  AddressMap.isAccessAllowed 6 AddressMap.READABLE AddressMap.EXECUTABLE = true
  <-> (forall i, Z.testbit AddressMap.READABLE i = true -> Z.testbit 6 i = true)
      /\ (forall i, Z.testbit AddressMap.EXECUTABLE i = true -> Z.testbit 6 i = false).
Proof.
  apply (isAccessAllowed_bits 6 AddressMap.READABLE AddressMap.EXECUTABLE).
  vm_compute. split; [discriminate | reflexivity].
Defined.

(** X3. A filter that requires and prohibits the same bit admits no
    segment. *)
Theorem isAccessAllowed_conflict has required prohibited :
  Z.land required prohibited <> 0 ->
  AddressMap.isAccessAllowed has required prohibited = false.
Proof.
  intros Hc. destruct (AddressMap.isAccessAllowed has required prohibited) eqn:E;
    [|reflexivity].
  exfalso. apply Hc. unfold AddressMap.isAccessAllowed in E.
  apply andb_true_iff in E. destruct E as [Hr Hn]. apply Z.eqb_eq in Hr, Hn.
  rewrite <- Hr, <- Hn.
  apply Z.bits_inj'. intros i _.
  rewrite !Z.land_spec, Z.bits_0, unsigned_not_bits.
  destruct (decide (0 <= i < 32)); [|rewrite !andb_false_r; reflexivity].
  destruct (Z.testbit has i); simpl; [|reflexivity].
  rewrite andb_false_r. reflexivity.
Qed.

Lemma isAccessAllowed_conflict_witness :
  AddressMap.isAccessAllowed 6 AddressMap.WRITABLE
    (Z.lor AddressMap.WRITABLE AddressMap.EXECUTABLE) = false.
Proof.
  apply (isAccessAllowed_conflict 6 AddressMap.WRITABLE
           (Z.lor AddressMap.WRITABLE AddressMap.EXECUTABLE)).
  vm_compute. discriminate.
Defined.

(** ** MappedBuffer: mappings of any size *)

(** [available] never overstates, whatever the size of the mapping. *)
Lemma mapped_available_within width s (b : MappedBuffer.t) (address : Z) :
  0 < s -> 0 <= address ->
  0 <= MappedBuffer.available width s b address
  /\ (MappedBuffer.available width s b address = 0
      \/ address + MappedBuffer.available width s b address * s
         <= MappedBuffer.device_size b).
Proof.
  intros Hs Ha. unfold MappedBuffer.available.
  destruct (address >=? MappedBuffer.device_size b) eqn:E; [lia|].
  rewrite Z.geb_leb in E. apply Z.leb_gt in E.
  pose proof (modulus_pos width) as HM.
  set (x := wrap width (wrap width (MappedBuffer.device_size b) - address)).
  assert (Hx : 0 <= x <= MappedBuffer.device_size b - address /\ x < modulus width).
  { subst x. unfold wrap. rewrite Zminus_mod_idemp_l.
    pose proof (Z.mod_pos_bound (MappedBuffer.device_size b - address)
                  (modulus width) HM).
    pose proof (Z.mod_le (MappedBuffer.device_size b - address) (modulus width)
                  ltac:(lia) HM).
    lia. }
  assert (Hq : 0 <= x / s <= x).
  { split; [apply Z.div_pos; lia|]. apply Z.div_le_upper_bound; nia. }
  rewrite (wrap_small width (x / s)) by lia.
  pose proof (Z.mul_div_le x s Hs). split; [lia|]. right. nia.
Qed.

Lemma mapped_count_within width s (b : MappedBuffer.t) (address n : Z) :
  0 < s -> 0 <= address -> 0 <= n ->
  0 <= Z.min n (MappedBuffer.available width s b address) * s
  /\ (Z.min n (MappedBuffer.available width s b address) * s = 0
      \/ address + Z.min n (MappedBuffer.available width s b address) * s
         <= MappedBuffer.device_size b).
Proof.
  intros Hs Ha Hn.
  destruct (mapped_available_within width s b address Hs Ha) as [H0 Hfit].
  set (avail := MappedBuffer.available width s b address) in *.
  split; [nia|]. destruct Hfit as [Hz|Hfit].
  - left. rewrite Hz, Z.min_r by lia. reflexivity.
  - right. assert (Z.min n avail * s <= avail * s) by nia. lia.
Qed.

(** X4. A mapped buffer never reaches outside its mapping, whatever the size
    of the mapping and the address: the count [available] returns fits
    between [address] and the end, and [read] and [write] with room for
    [min n (available address)] values in the caller's array complete
    without any access outside the mapping, returning that count. *)
Theorem MappedBuffer_stays_within width s (b : MappedBuffer.t) (mem : list byte)
        (buf : nat) (address n : Z) :
  0 < s -> 0 <= address -> 0 <= n ->
  (buf + Z.to_nat (Z.min n (MappedBuffer.available width s b address) * s)
   <= length mem)%nat ->
  (MappedBuffer.available width s b address = 0
   \/ address + MappedBuffer.available width s b address * s
      <= MappedBuffer.device_size b)
  /\ (exists mem',
        MappedBuffer.read width s b mem buf address n
        = Some (mem', Z.min n (MappedBuffer.available width s b address))
        /\ length mem' = length mem)
  /\ (exists b',
        MappedBuffer.write width s b mem buf address n
        = Some (b', Z.min n (MappedBuffer.available width s b address))
        /\ MappedBuffer.device_size b' = MappedBuffer.device_size b).
Proof.
  intros Hs Ha Hn Hroom.
  destruct (mapped_available_within width s b address Hs Ha) as [_ Hav].
  destruct (mapped_count_within width s b address n Hs Ha Hn) as [Hk0 Hkfit].
  set (k := Z.min n (MappedBuffer.available width s b address)) in *.
  split; [exact Hav|]. split.
  - unfold MappedBuffer.read, MappedBuffer.device_bytes. fold k.
    destruct (decide _) as [_|Hno]; [|exfalso; apply Hno; lia].
    rewrite store_Some by (rewrite length_fmap, length_seqZ; exact Hroom).
    eexists. split; [reflexivity|].
    rewrite !length_app, length_take, length_fmap, length_seqZ, length_drop. lia.
  - unfold MappedBuffer.write, MappedBuffer.device_store. fold k.
    rewrite load_Some by exact Hroom.
    assert (Hlen : length (take (Z.to_nat (k * s)) (drop buf mem)) = Z.to_nat (k * s)).
    { rewrite length_take, length_drop. lia. }
    rewrite Hlen.
    destruct (decide _) as [_|Hno]; [|exfalso; apply Hno; lia].
    eexists. split; reflexivity.
Qed.

Lemma MappedBuffer_stays_within_witness :
  exists mem',
    MappedBuffer.read 32 4 Examples.large_mapping (replicate 12 x01) 0 0 3
    = Some (mem', Z.min 3 (MappedBuffer.available 32 4 Examples.large_mapping 0))
    /\ length mem' = length (replicate 12 x01).
Proof.
  destruct (MappedBuffer_stays_within 32 4 Examples.large_mapping (replicate 12 x01)
              0%nat 0 3) as (_ & Hr & _);
    [lia | lia | lia | vm_compute; lia | exact Hr].
Defined.

(** X5. What a mapped buffer stores it gives back: after a [write] of [n]
    values at [address], a [read] of [n] values at the same address returns
    the same count and puts into the destination the bytes that were taken
    from the source. This holds for values of any size and mappings of any
    size. *)
Theorem MappedBuffer_write_read width s (b : MappedBuffer.t) (src dst : list byte)
        (p q : nat) (address n : Z) :
  0 < s -> 0 <= address -> 0 <= n ->
  (p + Z.to_nat (Z.min n (MappedBuffer.available width s b address) * s)
   <= length src)%nat ->
  (q + Z.to_nat (Z.min n (MappedBuffer.available width s b address) * s)
   <= length dst)%nat ->
  exists b' dst' k,
    MappedBuffer.write width s b src p address n = Some (b', k)
    /\ MappedBuffer.read width s b' dst q address n = Some (dst', k)
    /\ k = Z.min n (MappedBuffer.available width s b address)
    /\ take (Z.to_nat (k * s)) (drop q dst') = take (Z.to_nat (k * s)) (drop p src).
Proof.
  intros Hs Ha Hn Hsrc Hdst.
  destruct (mapped_count_within width s b address n Hs Ha Hn) as [Hk0 Hkfit].
  set (k := Z.min n (MappedBuffer.available width s b address)) in *.
  unfold MappedBuffer.write. fold k. rewrite load_Some by exact Hsrc.
  unfold MappedBuffer.device_store.
  assert (Hlen : length (take (Z.to_nat (k * s)) (drop p src)) = Z.to_nat (k * s)).
  { rewrite length_take, length_drop. lia. }
  rewrite Hlen.
  destruct (decide _) as [_|Hno]; [|exfalso; apply Hno; lia].
  eexists _, _, k. split; [reflexivity|].
  unfold MappedBuffer.read, MappedBuffer.available. cbn [MappedBuffer.device_size].
  change (Z.min n (if address >=? MappedBuffer.device_size b then 0
                   else wrap width (wrap width (wrap width (MappedBuffer.device_size b)
                                                - address) / s)))
    with (Z.min n (MappedBuffer.available width s b address)). fold k.
  unfold MappedBuffer.device_bytes. cbn [MappedBuffer.device_size MappedBuffer.device_data].
  destruct (decide _) as [_|Hno]; [|exfalso; apply Hno; lia].
  rewrite store_Some by (rewrite length_fmap, length_seqZ; exact Hdst).
  split; [reflexivity|]. split; [reflexivity|].
  rewrite length_fmap, length_seqZ.
  rewrite drop_app_length' by (rewrite length_take; lia).
  rewrite take_app_length' by (rewrite length_fmap, length_seqZ; reflexivity).
  apply list_eq. intros i.
  destruct (decide (i < Z.to_nat (k * s))%nat) as [Hi|Hi].
  - rewrite list_lookup_fmap, lookup_seqZ_lt by lia. simpl.
    destruct (decide _) as [_|Hno]; [|lia].
    replace (Z.to_nat (address + Z.of_nat i - address)) with i by lia.
    destruct (take (Z.to_nat (k * s)) (drop p src) !! i) eqn:E; [reflexivity|].
    apply lookup_ge_None in E. lia.
  - rewrite lookup_ge_None_2 by (rewrite length_fmap, length_seqZ; lia).
    rewrite lookup_ge_None_2 by lia. reflexivity.
Qed.

Lemma MappedBuffer_write_read_witness :
  exists b' dst' k,
    MappedBuffer.write 32 2 Examples.small_mapping [x01; x02; x03; x04; x05; x06] 1 2 5
    = Some (b', k)
    /\ MappedBuffer.read 32 2 b' (replicate 6 x00) 0 2 5 = Some (dst', k)
    /\ k = Z.min 5 (MappedBuffer.available 32 2 Examples.small_mapping 2)
    /\ take (Z.to_nat (k * 2)) (drop 0 dst')
       = take (Z.to_nat (k * 2)) (drop 1 [x01; x02; x03; x04; x05; x06]).
Proof.
  apply (MappedBuffer_write_read 32 2 Examples.small_mapping
           [x01; x02; x03; x04; x05; x06] (replicate 6 x00) 1 0 2 5);
    [lia | lia | lia | vm_compute; lia | vm_compute; lia].
Defined.


(** ** AddressMap: what [find] returns *)

Lemma find_nil_iff m a :
  AddressMap.find m a = []
  <-> (forall n, n ∈ m -> Interval.isContaining (AddressMap.key n) a = false).
Proof.
  induction m as [|x m IH]; simpl.
  - split; [intros _ n Hin; inversion Hin | reflexivity].
  - destruct (Interval.isContaining (AddressMap.key x) a) eqn:E.
    + split; [discriminate|]. intros H.
      rewrite (H x) in E by (apply elem_of_cons; left; reflexivity). discriminate.
    + rewrite IH. split.
      * intros H n Hin. apply elem_of_cons in Hin. destruct Hin as [->|Hin]; auto.
      * intros H n Hin. apply H. apply elem_of_cons. right. exact Hin.
Qed.

Lemma find_subset m a n : n ∈ AddressMap.find m a -> n ∈ m.
Proof.
  induction m as [|x m IH]; simpl; [auto|].
  destruct (Interval.isContaining (AddressMap.key x) a); [auto|].
  intros H. apply elem_of_cons. right. apply IH. exact H.
Qed.

(** In an ordered map the node that contains an address is the one [find]
    returns. *)
Lemma find_of_elem width m a n : forall b,
  AddressMap.above width b m ->
  n ∈ m -> Interval.isContaining (AddressMap.key n) a = true ->
  exists next, AddressMap.find m a = n :: next.
Proof.
  induction m as [|x m IH]; intros b Hab Hin Hc; [inversion Hin|].
  simpl. simpl in Hab.
  destruct (AddressMap.key x) as [|lo hi] eqn:Ex; [contradiction|].
  destruct Hab as (Hb & Hlo & Hhi & Hrest).
  apply elem_of_cons in Hin.
  destruct (Interval.isContaining (Interval.Range lo hi) a) eqn:E.
  - destruct Hin as [->|Hin]; [eexists; reflexivity|]. exfalso.
    destruct (above_elem _ _ _ _ Hrest Hin) as (lo' & hi' & Hk & Hb' & _).
    rewrite Hk in Hc. apply isContaining_Range in Hc, E. lia.
  - destruct Hin as [->|Hin]; [rewrite Ex in Hc; congruence|].
    apply (IH hi); assumption.
Qed.

(** ** AddressMap: availability, as the code computes it *)

(** X6. [available] returns the empty interval exactly when no node of the
    map contains [start]; the access filter plays no part in it. *)
Theorem available_empty_iff width m start req proh :
  AddressMap.available width m start req proh = Interval.Empty
  <-> (forall n, n ∈ m -> Interval.isContaining (AddressMap.key n) start = false).
Proof.
  rewrite <- find_nil_iff. unfold AddressMap.available.
  destruct (AddressMap.find m start) as [|n next] eqn:Ef.
  - split; reflexivity.
  - split; [|discriminate]. intros H.
    pose proof (available_loop_nonempty width start req proh next start
                  (Interval.upper (AddressMap.key n))) as Hne.
    rewrite H in Hne. discriminate.
Qed.

Lemma available_loop_run width start req proh found : forall b,
  -1 <= b ->
  AddressMap.above width b found ->
  exists hi,
    AddressMap.available_loop width start req proh found (Interval.Range start b)
    = Interval.Range start hi
    /\ b <= hi
    /\ (hi = b \/ hi < modulus width)
    /\ (forall a, b < a <= hi ->
          exists n, n ∈ found
                    /\ Interval.isContaining (AddressMap.key n) a = true
                    /\ AddressMap.isAccessAllowed (accessibility (AddressMap.value n))
                         req proh = true)
    /\ (forall n, n ∈ found ->
          Interval.isContaining (AddressMap.key n) (hi + 1) = true ->
          AddressMap.isAccessAllowed (accessibility (AddressMap.value n)) req proh = false).
Proof.
  induction found as [|x next IH]; intros b Hb Hab.
  - exists b. simpl. split; [reflexivity|]. split; [lia|]. split; [left; reflexivity|].
    split; [intros a Ha; lia | intros n Hin; inversion Hin].
  - pose proof Hab as Hab'. simpl in Hab'.
    destruct (AddressMap.key x) as [|lo hi] eqn:Ex; [contradiction|].
    destruct Hab' as (Hblo & Hlohi & Hhi & Hrest).
    assert (Hothers : forall n a, n ∈ next ->
              Interval.isContaining (AddressMap.key n) a = true -> hi < a).
    { intros n a Hin Hc.
      destruct (above_elem _ _ _ _ Hrest Hin) as (lo' & hi' & Hk & Hb' & _).
      rewrite Hk in Hc. apply isContaining_Range in Hc. lia. }
    simpl. rewrite Ex. cbn [Interval.lower Interval.upper].
    rewrite (wrap_small width (b + 1)) by lia.
    destruct (lo =? b + 1) eqn:Eadj; simpl.
    2: { apply Z.eqb_neq in Eadj. exists b. split; [reflexivity|]. split; [lia|].
         split; [left; reflexivity|]. split; [intros a Ha; lia|].
         intros n Hin Hc. exfalso. apply elem_of_cons in Hin. destruct Hin as [->|Hin].
         - rewrite Ex in Hc. apply isContaining_Range in Hc. lia.
         - specialize (Hothers n (b + 1) Hin Hc). lia. }
    apply Z.eqb_eq in Eadj.
    destruct (AddressMap.isAccessAllowed (accessibility (AddressMap.value x)) req proh)
      eqn:Eacc; simpl.
    2: { exists b. split; [reflexivity|]. split; [lia|].
         split; [left; reflexivity|]. split; [intros a Ha; lia|].
         intros n Hin Hc. apply elem_of_cons in Hin. destruct Hin as [->|Hin];
           [exact Eacc|].
         specialize (Hothers n (b + 1) Hin Hc). lia. }
    destruct (IH hi ltac:(lia) Hrest) as (hi' & Hres & Hle & Hbound & Hrun & Hmax).
    exists hi'. split; [exact Hres|]. split; [lia|]. split; [right; lia|]. split.
    + intros a Ha. destruct (decide (a <= hi)) as [Hin|Hout].
      * exists x. split; [apply elem_of_cons; left; reflexivity|].
        split; [rewrite Ex; apply isContaining_Range; lia | exact Eacc].
      * destruct (Hrun a ltac:(lia)) as (n & Hn & Hc & Ha').
        exists n. split; [apply elem_of_cons; right; exact Hn | auto].
    + intros n Hin Hc. apply elem_of_cons in Hin. destruct Hin as [->|Hin].
      * rewrite Ex in Hc. apply isContaining_Range in Hc. lia.
      * apply Hmax; assumption.
Qed.

Lemma available_from_find width m start req proh n next :
  AddressMap.ordered width m ->
  AddressMap.find m start = n :: next ->
  exists hi,
    AddressMap.available width m start req proh = Interval.Range start hi
    /\ start <= hi /\ Interval.upper (AddressMap.key n) <= hi /\ hi < modulus width
    /\ (forall a, start <= a <= hi ->
          exists n', n' ∈ m
                     /\ Interval.isContaining (AddressMap.key n') a = true
                     /\ (Interval.upper (AddressMap.key n) < a ->
                         AddressMap.isAccessAllowed (accessibility (AddressMap.value n'))
                           req proh = true))
    /\ (forall n', n' ∈ m ->
          Interval.isContaining (AddressMap.key n') (hi + 1) = true ->
          AddressMap.isAccessAllowed (accessibility (AddressMap.value n')) req proh = false).
Proof.
  intros Hord Hf.
  assert (Hin : n ∈ m).
  { apply (find_subset m start). rewrite Hf. apply elem_of_cons. left. reflexivity. }
  pose proof (find_head m start n next Hf) as Hc.
  pose proof (find_above width m start (-1) Hord) as Hab. rewrite Hf in Hab.
  assert (Hsome : exists n0, n0 ∈ m
                             /\ Interval.isContaining (AddressMap.key n0) start = true)
    by (exists n; auto).
  simpl in Hab. destruct (AddressMap.key n) as [|lo hi] eqn:En; [contradiction|].
  destruct Hab as (Hlo & Hlohi & Hhi & Hrest).
  pose proof Hc as Hc'. apply isContaining_Range in Hc'.
  destruct (available_loop_run width start req proh next hi ltac:(lia) Hrest)
    as (hi' & Hres & Hle & Hbound & Hrun & Hmax).
  exists hi'. unfold AddressMap.available. rewrite Hf, En.
  cbn [Interval.upper]. split; [exact Hres|].
  split; [lia|]. split; [lia|]. split; [lia|]. split.
  - intros a Ha. destruct (decide (a <= hi)) as [Hle'|Hgt].
    + exists n. split; [exact Hin|]. split; [|lia].
      rewrite En. apply isContaining_Range. lia.
    + destruct (Hrun a ltac:(lia)) as (n' & Hn' & Hcn' & Han').
      exists n'. split; [|auto].
      apply (find_subset m start). rewrite Hf. apply elem_of_cons. right. exact Hn'.
  - intros n' Hin' Hcn'.
    destruct (find_keeps width start m (-1) Hord Hsome (hi' + 1) ltac:(lia))
      as [_ Hkeep].
    specialize (Hkeep n' Hin' Hcn'). rewrite Hf in Hkeep.
    apply elem_of_cons in Hkeep. destruct Hkeep as [->|Hkeep].
    + rewrite En in Hcn'. apply isContaining_Range in Hcn'. lia.
    + apply Hmax; assumption.
Qed.

(** X7. Over an ordered map, when node [n] contains [start], [available]
    returns [[start, hi]] where [hi] is at least the end of [n]; every
    address up to [hi] is mapped, the nodes after [n] that reach into the
    result all satisfy the filter, and the run is maximal: the node that
    contains [hi + 1], if there is one, fails the filter. *)
Theorem available_run width m start req proh n :
  AddressMap.ordered width m ->
  n ∈ m ->
  Interval.isContaining (AddressMap.key n) start = true ->
  exists hi,
    AddressMap.available width m start req proh = Interval.Range start hi
    /\ start <= hi /\ Interval.upper (AddressMap.key n) <= hi /\ hi < modulus width
    /\ (forall a, start <= a <= hi ->
          exists n', n' ∈ m
                     /\ Interval.isContaining (AddressMap.key n') a = true
                     /\ (Interval.upper (AddressMap.key n) < a ->
                         AddressMap.isAccessAllowed (accessibility (AddressMap.value n'))
                           req proh = true))
    /\ (forall n', n' ∈ m ->
          Interval.isContaining (AddressMap.key n') (hi + 1) = true ->
          AddressMap.isAccessAllowed (accessibility (AddressMap.value n')) req proh = false).
Proof.
  intros Hord Hin Hc.
  destruct (find_of_elem width m start n (-1) Hord Hin Hc) as [next Hf].
  exact (available_from_find width m start req proh n next Hord Hf).
Qed.

Lemma available_run_witness :
  exists hi,
    AddressMap.available 32 Examples.two_map 101 AddressMap.READABLE 0
    = Interval.Range 101 hi
    /\ 101 <= hi /\ 103 <= hi /\ hi < modulus 32.
Proof.
  destruct (available_run 32 Examples.two_map 101 AddressMap.READABLE 0
              (Interval.Range 100 103, mkSegment 1 2 Examples.rw))
    as (hi & Hres & H1 & H2 & H3 & _).
  - unfold AddressMap.ordered. simpl. vm_compute. repeat split; discriminate.
  - apply elem_of_cons. left. reflexivity.
  - reflexivity.
  - exists hi. simpl in H2. auto.
Defined.

(** ** AddressMap: requests that transfer nothing *)

Lemma find_first_refused m a req proh :
  (forall n, n ∈ m -> Interval.isContaining (AddressMap.key n) a = true ->
             AddressMap.isAccessAllowed (accessibility (AddressMap.value n)) req proh
             = false) ->
  match AddressMap.find m a with
  | [] => True
  | n :: _ => AddressMap.isAccessAllowed (accessibility (AddressMap.value n)) req proh
              = false
  end.
Proof.
  intros H. destruct (AddressMap.find m a) as [|n next] eqn:Ef; [exact I|].
  apply H.
  - apply (find_subset m a). rewrite Ef. apply elem_of_cons. left. reflexivity.
  - apply (find_head m a n next Ef).
Qed.

(** X8. When the lower bound of the request is unmapped, or the node that
    contains it fails the filter, [read] and [write] return the empty
    interval, call no buffer and leave the caller's array and the heap as
    they were. *)
Theorem read_write_refused width (V B : Type) `{!Buffer width V B}
        (h : gmap nat B) (m : list AddressMap.Node) (mem : list V) (buf : nat)
        (where_ : Interval.t) (req proh : Z) :
  (forall n, n ∈ m ->
     Interval.isContaining (AddressMap.key n) (Interval.lower where_) = true ->
     AddressMap.isAccessAllowed (accessibility (AddressMap.value n)) req proh = false) ->
  AddressMap.read width h m mem buf where_ req proh = Some (Interval.Empty, mem, [])
  /\ AddressMap.write width h m mem buf where_ req proh = Some (Interval.Empty, h, []).
Proof.
  intros H. pose proof (find_first_refused m (Interval.lower where_) req proh H) as Hf.
  unfold AddressMap.read, AddressMap.write.
  destruct (negb (Interval.isEmpty where_)); [|split; reflexivity].
  destruct (AddressMap.find m (Interval.lower where_)) as [|n next];
    [split; reflexivity|].
  simpl. rewrite Hf. split; reflexivity.
Qed.

Lemma read_write_refused_witness :
  AddressMap.read 32 Examples.heap Examples.two_map [x01; x01] 0
    (Interval.Range 50 101) AddressMap.READABLE 0
  = Some (Interval.Empty, [x01; x01], [])
  /\ AddressMap.write 32 Examples.heap Examples.two_map [x01; x01] 0
       (Interval.Range 50 101) AddressMap.READABLE 0
     = Some (Interval.Empty, Examples.heap, []).
Proof.
  apply (read_write_refused 32 byte BufferObject Examples.heap Examples.two_map
           [x01; x01] 0%nat (Interval.Range 50 101) AddressMap.READABLE 0).
  intros n Hin Hc. exfalso.
  apply elem_of_cons in Hin. destruct Hin as [->|Hin]; [discriminate Hc|].
  apply elem_of_cons in Hin. destruct Hin as [->|Hin]; [discriminate Hc|].
  inversion Hin.
Defined.


(** ** AddressMap: the shape of what read and write return *)

Lemma span_size width i :
  0 <= span i < modulus width -> Interval.size width i = span i.
Proof.
  intros H. destruct i as [|lo hi]; simpl in *; [reflexivity|].
  apply wrap_small. exact H.
Qed.

Lemma traversal_prefix width wl wu req proh acc found new res :
  AddressMap.Traversal width (Interval.Range wl wu) req proh acc found new res ->
  0 <= wl -> wu - wl + 1 < modulus width ->
  forall b,
    AddressMap.above width b found ->
    (acc = Interval.Empty
     /\ (forall f rest, found = f :: rest ->
           Interval.isContaining (AddressMap.key f) wl = true))
    \/ (acc = Interval.Range wl b /\ wl <= b <= wu) ->
    Forall (counted width) new ->
    (res = Interval.Empty \/ exists b', res = Interval.Range wl b' /\ wl <= b' <= wu)
    /\ span res = span acc + total_returned new.
Proof.
  intros Ht Hwl Hsz.
  induction Ht as [acc|acc n next Hstop|acc n next k Hp Hk|acc n next log res Hp Ht IH];
    intros b Hab Hacc Hcnt.
  - split; [|simpl; lia].
    destruct Hacc as [[-> _]|[-> Hb]]; [left; reflexivity|right; eauto].
  - split; [|simpl; lia].
    destruct Hacc as [[-> _]|[-> Hb]]; [left; reflexivity|right; eauto].
  - destruct n as [ky seg]. destruct Hp as (_ & Hne & Hgap).
    simpl in Hab. unfold AddressMap.key in *. simpl in *.
    destruct ky as [|lo hi]; [contradiction|].
    destruct Hab as (Hb & Hlo & Hhi & _).
    apply Forall_cons in Hcnt. destruct Hcnt as [Hk0 _].
    unfold counted, AddressMap.transfer_at, AddressMap.key in Hk0. simpl in Hk0.
    unfold Interval.intersection in *.
    destruct (Z.max wl lo <=? Z.min wu hi) eqn:El; [|discriminate].
    apply Z.leb_le in El. simpl in *.
    rewrite wrap_small in Hk0, Hk by lia.
    unfold Interval.baseSize. destruct (k =? 0) eqn:Ek0.
    + apply Z.eqb_eq in Ek0. subst k.
      assert (Hh : Interval.hull acc Interval.Empty = acc) by (destruct acc; reflexivity).
      rewrite Hh. split; [|lia].
      destruct Hacc as [[-> _]|[-> Hbb]]; [left; reflexivity|right; eauto].
    + apply Z.eqb_neq in Ek0. rewrite wrap_small by lia.
      destruct Hacc as [[-> Hfirst]|[-> Hbb]]; simpl.
      * specialize (Hfirst _ _ eq_refl). simpl in Hfirst.
        apply isContaining_Range in Hfirst.
        replace (Z.max wl lo) with wl by lia.
        split; [|lia]. right. eexists. split; [reflexivity|]. lia.
      * destruct Hgap as [Hgap|Hgap]; [discriminate|]. simpl in Hgap.
        rewrite wrap_small in Hgap by lia.
        replace (Z.min wl (Z.max wl lo)) with wl by lia.
        split; [|lia]. right. eexists. split; [reflexivity|]. lia.
  - destruct n as [ky seg]. destruct Hp as (_ & Hne & Hgap).
    simpl in Hab. unfold AddressMap.key in *. simpl in *.
    destruct ky as [|lo hi]; [contradiction|].
    destruct Hab as (Hb & Hlo & Hhi & Hnext).
    apply Forall_cons in Hcnt. destruct Hcnt as [_ Hcnt].
    unfold Interval.intersection in *.
    destruct (Z.max wl lo <=? Z.min wu hi) eqn:El; [|discriminate].
    apply Z.leb_le in El. simpl in *.
    rewrite (wrap_small width (Z.min wu hi - Z.max wl lo + 1)) by lia.
    assert (Hhull : Interval.hull acc (Interval.Range (Z.max wl lo) (Z.min wu hi))
                    = Interval.Range wl (Z.min wu hi)
                    /\ span acc + (Z.min wu hi - Z.max wl lo + 1)
                       = Z.min wu hi - wl + 1).
    { destruct Hacc as [[-> Hfirst]|[-> Hbb]]; simpl.
      - specialize (Hfirst _ _ eq_refl). simpl in Hfirst.
        apply isContaining_Range in Hfirst.
        replace (Z.max wl lo) with wl by lia. split; [reflexivity | lia].
      - destruct Hgap as [Hgap|Hgap]; [discriminate|]. simpl in Hgap.
        rewrite wrap_small in Hgap by lia.
        split; [f_equal; lia | lia]. }
    destruct Hhull as [Hhull Hspan]. rewrite Hhull in IH.
    destruct (IH (Z.min wu hi)) as [IH1 IH2].
    { apply above_weaken with hi; [lia | exact Hnext]. }
    { right. split; [reflexivity|].
      destruct Hacc as [[-> Hfirst]|[-> Hbb]].
      - specialize (Hfirst _ _ eq_refl). simpl in Hfirst.
        apply isContaining_Range in Hfirst. lia.
      - lia. }
    { exact Hcnt. }
    split; [exact IH1|]. simpl in IH2. lia.
Qed.

Lemma find_first_contains m a :
  forall f rest, AddressMap.find m a = f :: rest ->
                 Interval.isContaining (AddressMap.key f) a = true.
Proof. intros f rest. apply find_head. Qed.

Lemma read_prefix width (V B : Type) `{!Buffer width V B}
      (h : gmap nat B) m (mem : list V) buf wl wu req proh res mem' log :
  AddressMap.ordered width m ->
  0 <= wl -> wu - wl + 1 < modulus width ->
  bounded_transfers width V B ->
  AddressMap.read width h m mem buf (Interval.Range wl wu) req proh
  = Some (res, mem', log) ->
  (res = Interval.Empty \/ exists b', res = Interval.Range wl b' /\ wl <= b' <= wu)
  /\ span res = total_returned log.
Proof.
  intros Hord Hwl Hsz Hlaw Hr. unfold AddressMap.read in Hr. simpl in Hr.
  pose proof (read_loop_counts _ _ _ _ _ _ _ _ Hlaw _ _ _ _ _ _ _ Hr (Forall_nil_2 _))
    as Hcnt.
  apply read_loop_traversal in Hr. destruct Hr as [new [Hnew Ht]].
  simpl in Hnew. subst new.
  destruct (traversal_prefix width wl wu req proh _ _ _ _ Ht Hwl Hsz (-1)) as [H1 H2].
  - apply find_above. exact Hord.
  - left. split; [reflexivity | apply find_first_contains].
  - exact Hcnt.
  - split; [exact H1 | simpl in H2; lia].
Qed.

Lemma write_prefix width (V B : Type) `{!Buffer width V B}
      (h : gmap nat B) m (mem : list V) buf wl wu req proh res h' log :
  AddressMap.ordered width m ->
  0 <= wl -> wu - wl + 1 < modulus width ->
  bounded_transfers width V B ->
  AddressMap.write width h m mem buf (Interval.Range wl wu) req proh
  = Some (res, h', log) ->
  (res = Interval.Empty \/ exists b', res = Interval.Range wl b' /\ wl <= b' <= wu)
  /\ span res = total_returned log.
Proof.
  intros Hord Hwl Hsz Hlaw Hr. unfold AddressMap.write in Hr. simpl in Hr.
  pose proof (write_loop_counts _ _ _ _ _ _ _ _ Hlaw _ _ _ _ _ _ _ Hr (Forall_nil_2 _))
    as Hcnt.
  apply write_loop_traversal in Hr. destruct Hr as [new [Hnew Ht]].
  simpl in Hnew. subst new.
  destruct (traversal_prefix width wl wu req proh _ _ _ _ Ht Hwl Hsz (-1)) as [H1 H2].
  - apply find_above. exact Hord.
  - left. split; [reflexivity | apply find_first_contains].
  - exact Hcnt.
  - split; [exact H1 | simpl in H2; lia].
Qed.

(** X9. Over an ordered map, with buffers that return at most the count
    asked for, and for a request [[lo, hi]] that is not the entire address
    space, the interval [read] or [write] returns is empty or starts at
    [lo] and ends within the request: a transfer never begins after the
    requested lower bound and never skips an address. *)
Theorem read_write_return_prefix width (V B : Type) `{!Buffer width V B}
        (h : gmap nat B) (m : list AddressMap.Node) (mem : list V) (buf : nat)
        (wl wu : Z) (req proh : Z) :
  AddressMap.ordered width m ->
  0 <= wl -> wu - wl + 1 < modulus width ->
  bounded_transfers width V B ->
  (forall res mem' log,
      AddressMap.read width h m mem buf (Interval.Range wl wu) req proh
      = Some (res, mem', log) ->
      res = Interval.Empty \/ exists b, res = Interval.Range wl b /\ wl <= b <= wu)
  /\ (forall res h' log,
      AddressMap.write width h m mem buf (Interval.Range wl wu) req proh
      = Some (res, h', log) ->
      res = Interval.Empty \/ exists b, res = Interval.Range wl b /\ wl <= b <= wu).
Proof.
  intros Hord Hwl Hsz Hlaw. split.
  - intros res mem' log Hr.
    apply (read_prefix width V B h m mem buf wl wu req proh res mem' log); assumption.
  - intros res h' log Hr.
    apply (write_prefix width V B h m mem buf wl wu req proh res h' log); assumption.
Qed.

Lemma read_write_return_prefix_witness :
  Interval.Range 100 103 = Interval.Empty
  \/ exists b, Interval.Range 100 103 = Interval.Range 100 b /\ 100 <= b <= 109.
Proof.
  apply (proj1 (read_write_return_prefix 32 byte BufferObject Examples.heap
                  Examples.short_map (replicate 10 x00) 0%nat 100 109
                  AddressMap.READABLE 0
                  ltac:(unfold AddressMap.ordered; simpl; vm_compute;
                        repeat split; discriminate)
                  ltac:(lia) ltac:(vm_compute; reflexivity)
                  (BufferObject_bounded 32))
               _ [x14; x15; x16; x17; x00; x00; x00; x00; x00; x00]
               [AddressMap.mkTransfer (Interval.Range 100 105) 2 0 4]).
  vm_compute. reflexivity.
Defined.

(** X10. The overloads that take a start address and a size return the
    number of values the buffers reported as transferred, and never more
    than [size]: over an ordered map, with buffers that return at most the
    count asked for, when [start + size] does not overflow the address
    type. A size of 0 returns 0 without any buffer call. *)
Theorem read_write_size_counts width (V B : Type) `{!Buffer width V B}
        (h : gmap nat B) (m : list AddressMap.Node) (mem : list V) (buf : nat)
        (start size : Z) (req proh : Z) :
  AddressMap.ordered width m ->
  0 <= start -> 0 <= size -> size < modulus width -> start + size <= modulus width ->
  bounded_transfers width V B ->
  (forall cnt mem' log,
      AddressMap.read_size width h m mem buf start size req proh = Some (cnt, mem', log) ->
      cnt = total_returned log /\ 0 <= cnt <= size /\ (size = 0 -> log = []))
  /\ (forall cnt h' log,
      AddressMap.write_size width h m mem buf start size req proh = Some (cnt, h', log) ->
      cnt = total_returned log /\ 0 <= cnt <= size /\ (size = 0 -> log = [])).
Proof.
  intros Hord Hstart Hsize Hlt Hsum Hlaw.
  assert (Hbase : size = 0 /\ Interval.baseSize width start size = Interval.Empty
                  \/ 0 < size
                     /\ Interval.baseSize width start size
                        = Interval.Range start (start + size - 1)).
  { unfold Interval.baseSize. destruct (size =? 0) eqn:E.
    - apply Z.eqb_eq in E. left. auto.
    - apply Z.eqb_neq in E. right. split; [lia|]. rewrite wrap_small by lia. reflexivity. }
  assert (Hres : forall res log,
            (res = Interval.Empty
             \/ exists b, res = Interval.Range start b /\ start <= b <= start + size - 1) ->
            span res = total_returned log ->
            Interval.size width res = total_returned log
            /\ 0 <= Interval.size width res <= size).
  { intros res log Hform Hspan.
    assert (0 <= span res <= size).
    { destruct Hform as [->|(b & -> & Hb)]; simpl; lia. }
    rewrite span_size by lia. split; [exact Hspan | lia]. }
  split.
  - intros cnt mem' log Hr. unfold AddressMap.read_size in Hr.
    destruct Hbase as [[Hz Hb]|[Hpos Hb]]; rewrite Hb in Hr.
    + simpl in Hr. injection Hr as <- <- <-. repeat split; simpl; lia.
    + destruct (AddressMap.read width h m mem buf
                  (Interval.Range start (start + size - 1)) req proh)
        as [[[res mem1] log1]|] eqn:Er; [|discriminate].
      injection Hr as <- <- <-.
      destruct (read_prefix width V B h m mem buf start (start + size - 1) req proh
                  res mem1 log1 Hord Hstart ltac:(lia) Hlaw Er) as [Hform Hspan].
      destruct (Hres res log1 Hform Hspan) as [H1 H2].
      split; [exact H1|]. split; [exact H2 | lia].
  - intros cnt h' log Hr. unfold AddressMap.write_size in Hr.
    destruct Hbase as [[Hz Hb]|[Hpos Hb]]; rewrite Hb in Hr.
    + simpl in Hr. injection Hr as <- <- <-. repeat split; simpl; lia.
    + destruct (AddressMap.write width h m mem buf
                  (Interval.Range start (start + size - 1)) req proh)
        as [[[res h1] log1]|] eqn:Er; [|discriminate].
      injection Hr as <- <- <-.
      destruct (write_prefix width V B h m mem buf start (start + size - 1) req proh
                  res h1 log1 Hord Hstart ltac:(lia) Hlaw Er) as [Hform Hspan].
      destruct (Hres res log1 Hform Hspan) as [H1 H2].
      split; [exact H1|]. split; [exact H2 | lia].
Qed.

Lemma read_write_size_counts_witness :
  AddressMap.read_size 32 Examples.heap Examples.short_map (replicate 10 x00) 0
    100 10 AddressMap.READABLE 0
  = Some (4, [x14; x15; x16; x17; x00; x00; x00; x00; x00; x00],
          [AddressMap.mkTransfer (Interval.Range 100 105) 2 0 4])
  /\ (4 = total_returned [AddressMap.mkTransfer (Interval.Range 100 105) 2 0 4]
      /\ 0 <= 4 <= 10
      /\ (10 = 0 -> [AddressMap.mkTransfer (Interval.Range 100 105) 2 0 4] = [])).
Proof.
  assert (Hr : AddressMap.read_size 32 Examples.heap Examples.short_map
                 (replicate 10 x00) 0 100 10 AddressMap.READABLE 0
               = Some (4, [x14; x15; x16; x17; x00; x00; x00; x00; x00; x00],
                       [AddressMap.mkTransfer (Interval.Range 100 105) 2 0 4]))
    by (vm_compute; reflexivity).
  split; [exact Hr|].
  apply (proj1 (read_write_size_counts 32 byte BufferObject Examples.heap
                  Examples.short_map (replicate 10 x00) 0%nat 100 10
                  AddressMap.READABLE 0
                  ltac:(unfold AddressMap.ordered; simpl; vm_compute;
                        repeat split; discriminate)
                  ltac:(lia) ltac:(lia) ltac:(vm_compute; reflexivity)
                  ltac:(vm_compute; discriminate)
                  (BufferObject_bounded 32)) _ _ _ Hr).
Defined.


(** ** AddressMap: which nodes and buffers a traversal touches *)

Lemma traversal_nodes width where_ req proh acc found new res :
  AddressMap.Traversal width where_ req proh acc found new res ->
  Forall (fun t => exists n,
            n ∈ found
            /\ t = AddressMap.transfer_at width where_ n (AddressMap.t_returned t)
            /\ AddressMap.isAccessAllowed (accessibility (AddressMap.value n)) req proh
               = true
            /\ Interval.isEmpty (Interval.intersection where_ (AddressMap.key n)) = false)
         new.
Proof.
  induction 1 as [acc|acc n next Hstop|acc n next k Hp Hk|acc n next log res Hp Ht IH].
  - constructor.
  - constructor.
  - constructor; [|constructor]. exists n. destruct Hp as (Ha & Hne & _).
    split; [apply elem_of_cons; left; reflexivity|]. split; [reflexivity | auto].
  - constructor.
    + exists n. destruct Hp as (Ha & Hne & _).
      split; [apply elem_of_cons; left; reflexivity|]. split; [reflexivity | auto].
    + eapply Forall_impl; [exact IH|]. intros t (n' & Hin & Hrest).
      exists n'. split; [apply elem_of_cons; right; exact Hin | exact Hrest].
Qed.

Lemma log_nodes width m where_ req proh log res :
  AddressMap.Traversal width where_ req proh Interval.Empty
    (AddressMap.find m (Interval.lower where_)) log res ->
  forall t, t ∈ log ->
    exists n, n ∈ m
              /\ AddressMap.t_buffer t = buffer (AddressMap.value n)
              /\ AddressMap.t_part t = Interval.intersection where_ (AddressMap.key n)
              /\ Interval.isEmpty (AddressMap.t_part t) = false
              /\ AddressMap.isAccessAllowed (accessibility (AddressMap.value n)) req proh
                 = true.
Proof.
  intros Ht t Hin. apply traversal_nodes in Ht.
  rewrite Forall_forall in Ht. destruct (Ht t Hin) as (n & Hn & Heq & Ha & Hne).
  exists n. split; [apply (find_subset m (Interval.lower where_)); exact Hn|].
  rewrite Heq. unfold AddressMap.transfer_at. simpl. auto.
Qed.

(** X11. Every call that [read] and [write] make on a buffer is made on
    behalf of a node of the map that satisfies the filter and whose
    interval meets the request: the call is made on the buffer of that
    node's segment, for the intersection of the request with the node's
    interval, which is not empty. *)
Theorem read_write_calls_allowed width (V B : Type) `{!Buffer width V B}
        (h : gmap nat B) (m : list AddressMap.Node) (mem : list V) (buf : nat)
        (where_ : Interval.t) (req proh : Z) :
  (forall res mem' log t,
      AddressMap.read width h m mem buf where_ req proh = Some (res, mem', log) ->
      t ∈ log ->
      exists n, n ∈ m
                /\ AddressMap.t_buffer t = buffer (AddressMap.value n)
                /\ AddressMap.t_part t = Interval.intersection where_ (AddressMap.key n)
                /\ Interval.isEmpty (AddressMap.t_part t) = false
                /\ AddressMap.isAccessAllowed (accessibility (AddressMap.value n))
                     req proh = true)
  /\ (forall res h' log t,
      AddressMap.write width h m mem buf where_ req proh = Some (res, h', log) ->
      t ∈ log ->
      exists n, n ∈ m
                /\ AddressMap.t_buffer t = buffer (AddressMap.value n)
                /\ AddressMap.t_part t = Interval.intersection where_ (AddressMap.key n)
                /\ Interval.isEmpty (AddressMap.t_part t) = false
                /\ AddressMap.isAccessAllowed (accessibility (AddressMap.value n))
                     req proh = true).
Proof.
  split.
  - intros res mem' log t Hr Hin. unfold AddressMap.read in Hr.
    destruct (negb (Interval.isEmpty where_)).
    + apply read_loop_traversal in Hr. destruct Hr as [new [Hnew Ht]].
      simpl in Hnew. subst new. exact (log_nodes _ _ _ _ _ _ _ Ht t Hin).
    + injection Hr as <- <- <-. inversion Hin.
  - intros res h' log t Hr Hin. unfold AddressMap.write in Hr.
    destruct (negb (Interval.isEmpty where_)).
    + apply write_loop_traversal in Hr. destruct Hr as [new [Hnew Ht]].
      simpl in Hnew. subst new. exact (log_nodes _ _ _ _ _ _ _ Ht t Hin).
    + injection Hr as <- <- <-. inversion Hin.
Qed.

Lemma read_write_calls_allowed_witness :
  exists n, n ∈ Examples.short_map
            /\ 2%nat = buffer (AddressMap.value n)
            /\ Interval.Range 100 105
               = Interval.intersection (Interval.Range 100 109) (AddressMap.key n)
            /\ Interval.isEmpty (Interval.Range 100 105) = false
            /\ AddressMap.isAccessAllowed (accessibility (AddressMap.value n))
                 AddressMap.READABLE 0 = true.
Proof.
  apply (proj1 (read_write_calls_allowed 32 byte BufferObject Examples.heap
                  Examples.short_map (replicate 10 x00) 0%nat (Interval.Range 100 109)
                  AddressMap.READABLE 0)
               (Interval.Range 100 103)
               [x14; x15; x16; x17; x00; x00; x00; x00; x00; x00]
               [AddressMap.mkTransfer (Interval.Range 100 105) 2 0 4]
               (AddressMap.mkTransfer (Interval.Range 100 105) 2 0 4)).
  - vm_compute. reflexivity.
  - apply elem_of_cons. left. reflexivity.
Defined.

Lemma result_mapped width m wl wu req proh log res :
  AddressMap.ordered width m ->
  0 <= wl -> wu - wl + 1 < modulus width ->
  AddressMap.Traversal width (Interval.Range wl wu) req proh Interval.Empty
    (AddressMap.find m wl) log res ->
  Forall (counted width) log ->
  forall a, Interval.elem a res ->
    exists n, n ∈ m
              /\ Interval.isContaining (AddressMap.key n) a = true
              /\ AddressMap.isAccessAllowed (accessibility (AddressMap.value n)) req proh
                 = true.
Proof.
  intros Hord Hwl Hsz Ht Hcnt a Ha.
  destruct (traversal_transferred width wl wu req proh _ _ _ _ Ht Hwl Hsz (-1))
    as [Hset _].
  { apply find_above. exact Hord. }
  { left. reflexivity. }
  { exact Hcnt. }
  apply Hset in Ha. destruct Ha as [Ha|Ha]; [contradiction|].
  destruct Ha as (t & Hin & Hrange).
  rewrite Forall_forall in Hcnt. specialize (Hcnt t Hin). unfold counted in Hcnt.
  destruct (log_nodes width m (Interval.Range wl wu) req proh log res Ht t Hin)
    as (n & Hn & _ & Hpart & Hne & Hall).
  exists n. split; [exact Hn|]. split; [|exact Hall].
  destruct (above_elem width m (-1) n Hord Hn) as (lo & hi & Hk & _ & Hlo & Hhi).
  rewrite Hk in *. rewrite Hpart in *. unfold Interval.intersection in *.
  destruct (Z.max wl lo <=? Z.min wu hi) eqn:E; [|discriminate].
  apply Z.leb_le in E. simpl in *. rewrite wrap_small in Hcnt by lia.
  apply isContaining_Range. lia.
Qed.

(** X12. Over an ordered map, with buffers that return at most the count
    asked for, and for a request that is not the entire address space,
    every address of the interval [read] or [write] returns lies in a node
    of the map that satisfies the filter: an unmapped address or an address
    of a segment that fails the filter is never reported as transferred. *)
Theorem read_write_result_allowed width (V B : Type) `{!Buffer width V B}
        (h : gmap nat B) (m : list AddressMap.Node) (mem : list V) (buf : nat)
        (wl wu : Z) (req proh : Z) :
  AddressMap.ordered width m ->
  0 <= wl -> wu - wl + 1 < modulus width ->
  bounded_transfers width V B ->
  (forall res mem' log a,
      AddressMap.read width h m mem buf (Interval.Range wl wu) req proh
      = Some (res, mem', log) ->
      Interval.elem a res ->
      exists n, n ∈ m
                /\ Interval.isContaining (AddressMap.key n) a = true
                /\ AddressMap.isAccessAllowed (accessibility (AddressMap.value n))
                     req proh = true)
  /\ (forall res h' log a,
      AddressMap.write width h m mem buf (Interval.Range wl wu) req proh
      = Some (res, h', log) ->
      Interval.elem a res ->
      exists n, n ∈ m
                /\ Interval.isContaining (AddressMap.key n) a = true
                /\ AddressMap.isAccessAllowed (accessibility (AddressMap.value n))
                     req proh = true).
Proof.
  intros Hord Hwl Hsz Hlaw. split.
  - intros res mem' log a Hr Ha. unfold AddressMap.read in Hr. simpl in Hr.
    pose proof (read_loop_counts _ _ _ _ _ _ _ _ Hlaw _ _ _ _ _ _ _ Hr (Forall_nil_2 _))
      as Hcnt.
    apply read_loop_traversal in Hr. destruct Hr as [new [Hnew Ht]].
    simpl in Hnew. subst new.
    exact (result_mapped width m wl wu req proh log res Hord Hwl Hsz Ht Hcnt a Ha).
  - intros res h' log a Hr Ha. unfold AddressMap.write in Hr. simpl in Hr.
    pose proof (write_loop_counts _ _ _ _ _ _ _ _ Hlaw _ _ _ _ _ _ _ Hr (Forall_nil_2 _))
      as Hcnt.
    apply write_loop_traversal in Hr. destruct Hr as [new [Hnew Ht]].
    simpl in Hnew. subst new.
    exact (result_mapped width m wl wu req proh log res Hord Hwl Hsz Ht Hcnt a Ha).
Qed.

Lemma read_write_result_allowed_witness :
  exists n, n ∈ Examples.two_map
            /\ Interval.isContaining (AddressMap.key n) 105 = true
            /\ AddressMap.isAccessAllowed (accessibility (AddressMap.value n))
                 AddressMap.READABLE 0 = true.
Proof.
  apply (proj1 (read_write_result_allowed 32 byte BufferObject Examples.heap
                  Examples.two_map (replicate 10 x00) 1%nat 101 106
                  AddressMap.READABLE 0
                  ltac:(unfold AddressMap.ordered; simpl; vm_compute;
                        repeat split; discriminate)
                  ltac:(lia) ltac:(vm_compute; reflexivity)
                  (BufferObject_bounded 32))
               (Interval.Range 101 106)
               [x00; x0d; x0e; x0f; x14; x15; x16; x00; x00; x00]
               [AddressMap.mkTransfer (Interval.Range 101 103) 1 3 3;
                AddressMap.mkTransfer (Interval.Range 104 106) 2 0 3] 105).
  - vm_compute. reflexivity.
  - simpl. lia.
Defined.

(** ** AddressMap: what a write leaves alone *)

Lemma write_loop_frame width (V B : Type) `{!Buffer width V B}
      found where_ req proh (mem : list V) :
  forall (h : gmap nat B) buf retval log0 res h' log,
    AddressMap.write_loop width h found where_ req proh mem buf retval log0
    = Some (res, h', log) ->
    exists new,
      log = log0 ++ new
      /\ (forall id, (forall t, t ∈ new -> AddressMap.t_buffer t <> id) ->
                     h' !! id = h !! id)
      /\ (forall id, is_Some (h' !! id) <-> is_Some (h !! id)).
Proof.
  induction found as [|n next IH]; intros h buf retval log0 res h' log H.
  - injection H as <- <- <-. exists []. rewrite app_nil_r. auto.
  - simpl in H.
    loop_case H Ea; [injection H as <- <- <-; exists []; rewrite app_nil_r; auto|].
    loop_case H Ep; [injection H as <- <- <-; exists []; rewrite app_nil_r; auto|].
    loop_case H Eh; [|discriminate H].
    loop_case H Eb; [|discriminate H].
    match type of Eb with _ = Some ?pr => destruct pr as [b' k] end.
    assert (Hins : (forall id, id <> buffer (AddressMap.value n) ->
                      <[buffer (AddressMap.value n) := b']> h !! id = h !! id)
                   /\ (forall id, is_Some (<[buffer (AddressMap.value n) := b']> h !! id)
                                  <-> is_Some (h !! id))).
    { split.
      - intros id Hne. apply lookup_insert_ne. congruence.
      - intros id. destruct (decide (buffer (AddressMap.value n) = id)) as [<-|Hne].
        + rewrite lookup_insert_eq, Eh. split; eauto.
        + rewrite lookup_insert_ne by exact Hne. reflexivity. }
    destruct Hins as [Hne Hdom].
    loop_case H Ek.
    + injection H as <- <- <-. eexists. split; [reflexivity|]. split; [|exact Hdom].
      intros id Hid. apply Hne. intros ->.
      apply (Hid _ ltac:(apply elem_of_cons; left; reflexivity)). reflexivity.
    + apply IH in H. destruct H as (new & -> & Hframe & Hdom').
      eexists. split; [rewrite <- app_assoc; reflexivity|]. split.
      * intros id Hid. rewrite Hframe.
        -- apply Hne. intros ->.
           apply (Hid _ ltac:(apply elem_of_cons; left; reflexivity)). reflexivity.
        -- intros t Ht. apply Hid. apply elem_of_cons. right. exact Ht.
      * intros id. rewrite Hdom'. apply Hdom.
Qed.

(** X13. A [write] changes only the buffers it called: every buffer of the
    heap that does not appear in the log of the call is exactly as before,
    and no buffer is added to or removed from the heap. *)
Theorem write_frame width (V B : Type) `{!Buffer width V B}
        (h : gmap nat B) (m : list AddressMap.Node) (mem : list V) (buf : nat)
        (where_ : Interval.t) (req proh : Z) res h' log :
  AddressMap.write width h m mem buf where_ req proh = Some (res, h', log) ->
  (forall id, (forall t, t ∈ log -> AddressMap.t_buffer t <> id) -> h' !! id = h !! id)
  /\ (forall id, is_Some (h' !! id) <-> is_Some (h !! id)).
Proof.
  intros Hw. unfold AddressMap.write in Hw.
  destruct (negb (Interval.isEmpty where_)).
  - apply write_loop_frame in Hw. destruct Hw as (new & Hnew & Hframe & Hdom).
    simpl in Hnew. subst new. split; assumption.
  - injection Hw as <- <- <-. split; [reflexivity | reflexivity].
Qed.

Lemma write_frame_witness :
  match AddressMap.write 32 Examples.heap Examples.short_map
          [x01; x02; x03; x04; x05; x06] 0 (Interval.Range 100 103)
          AddressMap.WRITABLE 0 with
  | Some (_, h', _) => h' !! 1%nat = Examples.heap !! 1%nat
  | None => False
  end.
Proof.
  destruct (AddressMap.write 32 Examples.heap Examples.short_map
              [x01; x02; x03; x04; x05; x06] 0 (Interval.Range 100 103)
              AddressMap.WRITABLE 0) as [[[res h'] log]|] eqn:Ew.
  - apply (proj1 (write_frame 32 byte BufferObject Examples.heap Examples.short_map
                    [x01; x02; x03; x04; x05; x06] 0%nat (Interval.Range 100 103)
                    AddressMap.WRITABLE 0 res h' log Ew)).
    intros t Ht. vm_compute in Ew. injection Ew as _ _ <-.
    apply list_elem_of_singleton in Ht. subst t. simpl. discriminate.
  - vm_compute in Ew. discriminate.
Defined.


(** ** AddressMap over a NullBuffer *)

Lemma first_part width m wl wu n :
  AddressMap.ordered width m ->
  wl <= wu ->
  n ∈ m -> Interval.isContaining (AddressMap.key n) wl = true ->
  exists next lo hi,
    AddressMap.find m wl = n :: next
    /\ AddressMap.key n = Interval.Range lo hi
    /\ -1 < lo /\ lo <= wl /\ wl <= hi /\ hi < modulus width
    /\ AddressMap.above width hi next
    /\ Interval.intersection (Interval.Range wl wu) (AddressMap.key n)
       = Interval.Range wl (Z.min wu hi).
Proof.
  intros Hord Hwlu Hin Hc.
  destruct (find_of_elem width m wl n (-1) Hord Hin Hc) as [next Hf].
  pose proof (find_above width m wl (-1) Hord) as Hab. rewrite Hf in Hab.
  simpl in Hab. destruct (AddressMap.key n) as [|lo hi] eqn:En; [contradiction|].
  destruct Hab as (Hlo & Hlohi & Hhi & Hrest).
  apply isContaining_Range in Hc.
  exists next, lo, hi. split; [exact Hf|]. split; [reflexivity|].
  repeat (split; [lia || assumption|]).
  simpl. replace (Z.max wl lo) with wl by lia.
  destruct (wl <=? Z.min wu hi) eqn:E; [reflexivity|]. apply Z.leb_gt in E. lia.
Qed.

(** X14. A [write] whose first segment is backed by a null buffer transfers
    nothing: over an ordered map, for a request that is not the entire
    address space and whose lower bound lies in a segment that passes the
    filter and refers to a null buffer, [write] makes that one call, which
    returns 0, and returns the empty interval with the heap unchanged;
    later segments are not tried. *)
Theorem write_null_segment width (h : gmap nat BufferObject)
        (m : list AddressMap.Node) (src : list byte) (buf : nat) (wl wu : Z)
        (req proh : Z) (n : AddressMap.Node) (b : NullBuffer.t) :
  AddressMap.ordered width m ->
  0 <= wl -> wl <= wu -> wu - wl + 1 < modulus width ->
  n ∈ m ->
  Interval.isContaining (AddressMap.key n) wl = true ->
  AddressMap.isAccessAllowed (accessibility (AddressMap.value n)) req proh = true ->
  h !! buffer (AddressMap.value n) = Some (Null b) ->
  AddressMap.write width h m src buf (Interval.Range wl wu) req proh
  = Some (Interval.Empty, h, [AddressMap.transfer_at width (Interval.Range wl wu) n 0]).
Proof.
  intros Hord Hwl Hwlu Hsz Hin Hc Hall Hh.
  destruct (first_part width m wl wu n Hord Hwlu Hin Hc)
    as (next & lo & hi & Hf & Hk & Hlo & Hlw & Hwh & Hhi & Hrest & Hpart).
  unfold AddressMap.write. cbn [Interval.isEmpty negb Interval.lower].
  rewrite Hf. cbn [AddressMap.write_loop]. rewrite Hall. cbn [negb].
  unfold AddressMap.transfer_at. rewrite Hpart.
  cbn [Interval.isEmpty orb andb negb]. rewrite Hh.
  cbn [buf_write BufferObject_Buffer NullBuffer.write Interval.lower Interval.size].
  rewrite (wrap_small width (Z.min wu hi - wl + 1)) by lia.
  replace (0 =? Z.min wu hi - wl + 1) with false
    by (symmetry; apply Z.eqb_neq; lia).
  cbn [negb]. unfold Interval.baseSize. cbn [Z.eqb Interval.hull app].
  rewrite (insert_id h _ _ Hh). reflexivity.
Qed.

Lemma write_null_segment_witness :
  AddressMap.write 32 Examples.restricted_heap Examples.restricted_map
    [x01; x02; x03] 0 (Interval.Range 2 4) 0 0
  = Some (Interval.Empty, Examples.restricted_heap,
          [AddressMap.transfer_at 32 (Interval.Range 2 4)
             (Interval.Range 0 9, mkSegment 1 0 0) 0]).
Proof.
  apply (write_null_segment 32 Examples.restricted_heap Examples.restricted_map
           [x01; x02; x03] 0%nat 2 4 0 0 (Interval.Range 0 9, mkSegment 1 0 0)
           (NullBuffer.instance 10)).
  - unfold AddressMap.ordered. simpl. vm_compute. repeat split; discriminate.
  - lia.
  - lia.
  - vm_compute. reflexivity.
  - apply elem_of_cons. left. reflexivity.
  - reflexivity.
  - reflexivity.
  - reflexivity.
Defined.

(** X15. A [read] from a segment backed by a null buffer yields default
    values: over an ordered map, for a request that lies within one segment
    which passes the filter and whose null buffer is large enough for the
    offsets of the request, [read] returns the whole request after one
    call, and leaves the default value in each destination position of the
    request and every other position of the caller's array as it was. *)
Theorem read_null_segment width (h : gmap nat BufferObject)
        (m : list AddressMap.Node) (mem : list byte) (buf : nat) (wl wu : Z)
        (req proh : Z) (n : AddressMap.Node) (b : NullBuffer.t) :
  AddressMap.ordered width m ->
  0 <= wl -> wl <= wu ->
  n ∈ m ->
  Interval.isContaining (AddressMap.key n) wl = true ->
  wu <= Interval.upper (AddressMap.key n) ->
  AddressMap.isAccessAllowed (accessibility (AddressMap.value n)) req proh = true ->
  h !! buffer (AddressMap.value n) = Some (Null b) ->
  0 <= offset (AddressMap.value n) ->
  wl - Interval.lower (AddressMap.key n) + offset (AddressMap.value n) + (wu - wl + 1)
  <= NullBuffer.size_ b ->
  NullBuffer.size_ b < modulus width ->
  (buf + Z.to_nat (wu - wl + 1) <= length mem)%nat ->
  exists mem',
    AddressMap.read width h m mem buf (Interval.Range wl wu) req proh
    = Some (Interval.Range wl wu, mem',
            [AddressMap.transfer_at width (Interval.Range wl wu) n (wu - wl + 1)])
    /\ length mem' = length mem
    /\ (forall j, (buf <= j < buf + Z.to_nat (wu - wl + 1))%nat -> mem' !! j = Some x00)
    /\ (forall j, (j < buf \/ buf + Z.to_nat (wu - wl + 1) <= j)%nat ->
                  mem' !! j = mem !! j).
Proof.
  intros Hord Hwl Hwlu Hin Hc Hup Hall Hh Hoff Hfit Hsz Hroom.
  destruct (first_part width m wl wu n Hord Hwlu Hin Hc)
    as (next & lo & hi & Hf & Hk & Hlo & Hlw & Hwh & Hhi & Hrest & Hpart).
  rewrite Hk in Hup, Hfit. cbn [Interval.upper Interval.lower] in Hup, Hfit.
  replace (Z.min wu hi) with wu in Hpart by lia.
  destruct (fill_spec byte x00 (Z.to_nat (wu - wl + 1)) mem buf 0)
    as (mem' & Hfill & Hlen & Hin' & Hout); [lia|].
  assert (Hsize : Interval.size width (Interval.Range wl wu) = wu - wl + 1).
  { simpl. apply wrap_small. lia. }
  assert (Hboff : wrap width (wl - lo + offset (AddressMap.value n))
                  = wl - lo + offset (AddressMap.value n)).
  { apply wrap_small. lia. }
  exists mem'. split; [|split; [exact Hlen|split]].
  - unfold AddressMap.read. cbn [Interval.isEmpty negb Interval.lower]. rewrite Hf.
    rewrite (read_loop_step width byte BufferObject h n next (Interval.Range wl wu)
               req proh mem mem' buf Interval.Empty [] (Null b)).
    + rewrite Hpart, Hsize. cbn [Interval.hull app].
      rewrite read_loop_beyond; [reflexivity|].
      apply above_weaken with hi; [lia | exact Hrest].
    + exact Hall.
    + rewrite Hpart. reflexivity.
    + left. reflexivity.
    + exact Hh.
    + unfold AddressMap.transfer_at. cbn [AddressMap.t_offset].
      rewrite Hpart, Hk. cbn [Interval.lower]. rewrite Hboff, Hsize.
      cbn [buf_read BufferObject_Buffer]. unfold NullBuffer.read. rewrite Hfill.
      f_equal. f_equal. unfold NullBuffer.available.
      destruct (wl - lo + offset (AddressMap.value n) <? NullBuffer.size_ b) eqn:E.
      * rewrite wrap_small by (apply Z.ltb_lt in E; lia). lia.
      * apply Z.ltb_ge in E. lia.
  - intros j Hj. apply Hin'. lia.
  - intros j Hj. apply Hout. lia.
Qed.

Lemma read_null_segment_witness :
  exists mem',
    AddressMap.read 32 Examples.restricted_heap Examples.restricted_map
      [x01; x01; x01; x01; x01] 1 (Interval.Range 2 4) 0 0
    = Some (Interval.Range 2 4, mem',
            [AddressMap.transfer_at 32 (Interval.Range 2 4)
               (Interval.Range 0 9, mkSegment 1 0 0) (4 - 2 + 1)])
    /\ length mem' = length [x01; x01; x01; x01; x01]
    /\ (forall j, (1 <= j < 1 + Z.to_nat (4 - 2 + 1))%nat -> mem' !! j = Some x00)
    /\ (forall j, (j < 1 \/ 1 + Z.to_nat (4 - 2 + 1) <= j)%nat ->
                  mem' !! j = [x01; x01; x01; x01; x01] !! j).
Proof.
  apply (read_null_segment 32 Examples.restricted_heap Examples.restricted_map
           [x01; x01; x01; x01; x01] 1%nat 2 4 0 0
           (Interval.Range 0 9, mkSegment 1 0 0) (NullBuffer.instance 10)).
  - unfold AddressMap.ordered. simpl. vm_compute. repeat split; discriminate.
  - lia.
  - lia.
  - apply elem_of_cons. left. reflexivity.
  - reflexivity.
  - simpl. lia.
  - reflexivity.
  - reflexivity.
  - simpl. lia.
  - simpl. lia.
  - vm_compute. reflexivity.
  - simpl. lia.
Defined.


(** ** AddressMap: read and write against available *)

Lemma within_available width m wl wu req proh log res :
  AddressMap.ordered width m ->
  0 <= wl -> wu - wl + 1 < modulus width ->
  AddressMap.Traversal width (Interval.Range wl wu) req proh Interval.Empty
    (AddressMap.find m wl) log res ->
  Forall (counted width) log ->
  forall a, Interval.elem a res ->
            Interval.elem a (AddressMap.available width m wl req proh).
Proof.
  intros Hord Hwl Hsz Ht Hcnt a Ha.
  destruct (traversal_prefix width wl wu req proh _ _ _ _ Ht Hwl Hsz (-1)) as [Hform _].
  { apply find_above. exact Hord. }
  { left. split; [reflexivity | apply find_first_contains]. }
  { exact Hcnt. }
  destruct Hform as [->|(b & -> & Hb)]; [contradiction|].
  simpl in Ha.
  pose proof (result_mapped width m wl wu req proh log _ Hord Hwl Hsz Ht Hcnt) as Hmap.
  destruct (Hmap wl) as (n0 & Hn0 & Hc0 & _); [simpl; lia|].
  destruct (find_of_elem width m wl n0 (-1) Hord Hn0 Hc0) as [next Hf].
  destruct (available_from_find width m wl req proh n0 next Hord Hf)
    as (hi & -> & Hlo & _ & _ & _ & Hmax).
  simpl. split; [lia|].
  destruct (Z_le_gt_dec b hi) as [Hle|Hgt]; [lia|]. exfalso.
  destruct (Hmap (hi + 1)) as (n' & Hn' & Hc' & Hall'); [simpl; lia|].
  rewrite (Hmax n' Hn' Hc') in Hall'. discriminate.
Qed.

(** X16. [read] and [write] never return more than [available] reports:
    over an ordered map, with buffers that return at most the count asked
    for, and for a request that is not the entire address space, every
    address of the returned interval belongs to
    [available(where.lower(), requiredAccess, prohibitedAccess)]. *)
Theorem read_write_within_available width (V B : Type) `{!Buffer width V B}
        (h : gmap nat B) (m : list AddressMap.Node) (mem : list V) (buf : nat)
        (wl wu : Z) (req proh : Z) :
  AddressMap.ordered width m ->
  0 <= wl -> wu - wl + 1 < modulus width ->
  bounded_transfers width V B ->
  (forall res mem' log a,
      AddressMap.read width h m mem buf (Interval.Range wl wu) req proh
      = Some (res, mem', log) ->
      Interval.elem a res ->
      Interval.elem a (AddressMap.available width m wl req proh))
  /\ (forall res h' log a,
      AddressMap.write width h m mem buf (Interval.Range wl wu) req proh
      = Some (res, h', log) ->
      Interval.elem a res ->
      Interval.elem a (AddressMap.available width m wl req proh)).
Proof.
  intros Hord Hwl Hsz Hlaw. split.
  - intros res mem' log a Hr Ha. unfold AddressMap.read in Hr. simpl in Hr.
    pose proof (read_loop_counts _ _ _ _ _ _ _ _ Hlaw _ _ _ _ _ _ _ Hr (Forall_nil_2 _))
      as Hcnt.
    apply read_loop_traversal in Hr. destruct Hr as [new [Hnew Ht]].
    simpl in Hnew. subst new.
    exact (within_available width m wl wu req proh log res Hord Hwl Hsz Ht Hcnt a Ha).
  - intros res h' log a Hr Ha. unfold AddressMap.write in Hr. simpl in Hr.
    pose proof (write_loop_counts _ _ _ _ _ _ _ _ Hlaw _ _ _ _ _ _ _ Hr (Forall_nil_2 _))
      as Hcnt.
    apply write_loop_traversal in Hr. destruct Hr as [new [Hnew Ht]].
    simpl in Hnew. subst new.
    exact (within_available width m wl wu req proh log res Hord Hwl Hsz Ht Hcnt a Ha).
Qed.

Lemma read_write_within_available_witness :
  Interval.elem 105 (AddressMap.available 32 Examples.two_map 101 AddressMap.READABLE 0).
Proof.
  apply (proj1 (read_write_within_available 32 byte BufferObject Examples.heap
                  Examples.two_map (replicate 10 x00) 1%nat 101 106
                  AddressMap.READABLE 0
                  ltac:(unfold AddressMap.ordered; simpl; vm_compute;
                        repeat split; discriminate)
                  ltac:(lia) ltac:(vm_compute; reflexivity)
                  (BufferObject_bounded 32))
               (Interval.Range 101 106)
               [x00; x0d; x0e; x0f; x14; x15; x16; x00; x00; x00]
               [AddressMap.mkTransfer (Interval.Range 101 103) 1 3 3;
                AddressMap.mkTransfer (Interval.Range 104 106) 2 0 3] 105).
  - vm_compute. reflexivity.
  - simpl. lia.
Defined.


(** ** AddressMap: where a read stores *)

Lemma fill_outside (V : Type) (Value : V) k : forall (mem mem' : list V) p i,
  NullBuffer.fill Value mem p i k = Some mem' ->
  length mem' = length mem
  /\ (forall j, (j < p + i \/ p + i + k <= j)%nat -> mem' !! j = mem !! j).
Proof.
  induction k as [|k IH]; intros mem mem' p i H; simpl in H.
  - injection H as <-. split; reflexivity.
  - destruct (decide (p + i < length mem)%nat) as [Hlt|Hge]; [|discriminate].
    apply IH in H. destruct H as [Hl Hout]. rewrite length_insert in Hl.
    split; [exact Hl|]. intros j Hj. rewrite Hout by lia.
    apply list_lookup_insert_ne. lia.
Qed.

(** The two buffers of the sources store only where they were asked to. *)
Lemma BufferObject_stores_within width : stores_within width byte BufferObject.
Proof.
  intros [b|b] mem p a n mem' k Hn H; simpl in H.
  - unfold NullBuffer.read in H.
    destruct (NullBuffer.fill x00 mem p 0 (Z.to_nat n)) as [m1|] eqn:Ef; [|discriminate].
    injection H as <- _. apply fill_outside in Ef. destruct Ef as [Hl Hout].
    split; [exact Hl|]. intros i Hi. apply Hout. lia.
  - unfold MappedBuffer.read in H.
    pose proof (MappedBuffer_available_nonneg width 1 b a) as Hav.
    destruct (MappedBuffer.device_bytes b a _) as [xs|] eqn:Ed; [|discriminate].
    unfold MappedBuffer.device_bytes in Ed.
    destruct (decide _); [|discriminate]. injection Ed as <-.
    unfold store in H. destruct (decide _) as [Hroom|]; [|discriminate].
    injection H as <- _.
    rewrite length_fmap, length_seqZ in *.
    split.
    + rewrite !length_app, length_take, length_fmap, length_seqZ, length_drop. lia.
    + intros i [Hi|Hi].
      * rewrite lookup_app_l by (rewrite length_take; lia).
        apply lookup_take_lt. exact Hi.
      * rewrite lookup_app_r by (rewrite length_take; lia).
        rewrite lookup_app_r by (rewrite length_take, length_fmap, length_seqZ; lia).
        rewrite lookup_drop, length_take, length_fmap, length_seqZ.
        f_equal. lia.
Qed.

Lemma read_loop_window width (V B : Type) `{!Buffer width V B}
      (h : gmap nat B) wl wu req proh (buf0 : nat) :
  0 <= wl -> wu - wl + 1 < modulus width ->
  bounded_transfers width V B -> stores_within width V B ->
  forall found (mem : list V) cur acc log b res mem' log',
    AddressMap.above width b found ->
    (acc = Interval.Empty /\ cur = buf0
     /\ (forall f rest, found = f :: rest ->
           Interval.isContaining (AddressMap.key f) wl = true))
    \/ (acc = Interval.Range wl b /\ wl <= b <= wu
        /\ cur = (buf0 + Z.to_nat (b - wl + 1))%nat) ->
    AddressMap.read_loop width h found (Interval.Range wl wu) req proh mem cur acc log
    = Some (res, mem', log') ->
    length mem' = length mem
    /\ (forall i, (i < buf0 \/ buf0 + Z.to_nat (wu - wl + 1) <= i)%nat ->
                  mem' !! i = mem !! i).
Proof.
  intros Hwl Hsz [Hlaw _] Hwin.
  induction found as [|n next IH]; intros mem cur acc log b res mem' log' Hab Hst H.
  - injection H as <- <- <-. split; reflexivity.
  - cbn [AddressMap.read_loop] in H.
    loop_case H Ea; [injection H as <- <- <-; split; reflexivity|].
    loop_case H Ep; [injection H as <- <- <-; split; reflexivity|].
    pose proof (passes_intro _ _ _ _ _ _ Ea Ep) as (_ & Hne & Hgap).
    loop_case H Eh; [|discriminate H].
    loop_case H Eb; [|discriminate H].
    match type of Eb with _ = Some ?pr => destruct pr as [mem1 k] end.
    pose proof (Hlaw _ _ _ _ _ _ _ (size_nonneg width _) Eb) as Hk.
    pose proof (Hwin _ _ _ _ _ _ _ (size_nonneg width _) Eb) as [Hlen1 Hout1].
    simpl in Hab. destruct (AddressMap.key n) as [|lo hi] eqn:En; [contradiction|].
    destruct Hab as (Hb & Hlo & Hhi & Hnext).
    unfold Interval.intersection in *.
    destruct (Z.max wl lo <=? Z.min wu hi) eqn:El; [|discriminate].
    apply Z.leb_le in El. cbn [Interval.lower Interval.size] in *.
    rewrite (wrap_small width (Z.min wu hi - Z.max wl lo + 1)) in * by lia.
    assert (Hcur : Z.max wl lo >= wl
                   /\ cur = (buf0 + Z.to_nat (Z.max wl lo - wl))%nat
                   /\ Interval.hull acc (Interval.Range (Z.max wl lo) (Z.min wu hi))
                      = Interval.Range wl (Z.min wu hi)).
    { destruct Hst as [(-> & -> & Hfirst)|(-> & Hbb & ->)].
      - specialize (Hfirst _ _ eq_refl). rewrite En in Hfirst.
        apply isContaining_Range in Hfirst.
        replace (Z.max wl lo) with wl by lia.
        split; [lia|]. split; [lia | reflexivity].
      - destruct Hgap as [Hgap|Hgap]; [discriminate|]. simpl in Hgap.
        rewrite wrap_small in Hgap by lia.
        split; [lia|]. split; [lia|]. simpl. f_equal; lia. }
    destruct Hcur as (Hge & -> & Hhull).
    assert (Hstep : forall i, (i < buf0 \/ buf0 + Z.to_nat (wu - wl + 1) <= i)%nat ->
                              mem1 !! i = mem !! i).
    { intros i Hi. apply Hout1. lia. }
    loop_case H Ek.
    + injection H as <- <- <-. split; assumption.
    + apply negb_false_iff in Ek. apply Z.eqb_eq in Ek. subst k.
      rewrite Hhull in H.
      apply (IH _ _ _ _ (Z.min wu hi)) in H.
      * destruct H as [Hl Hout]. split; [lia|].
        intros i Hi. rewrite Hout by exact Hi. apply Hstep. exact Hi.
      * apply above_weaken with hi; [lia | exact Hnext].
      * right. split; [reflexivity|]. split; [lia|]. lia.
Qed.

(** X17. A [read] stores only into the destination positions of the
    request: over an ordered map, with buffers that return at most the
    count asked for and store only where they were asked to, and for a
    request of [N] addresses that is not the entire address space, the
    caller's array keeps its length and every position before [buf] or from
    [buf + N] on is as it was, also after a short read. *)
Theorem read_stores_in_request width (V B : Type) `{!Buffer width V B}
        (h : gmap nat B) (m : list AddressMap.Node) (mem : list V) (buf : nat)
        (wl wu : Z) (req proh : Z) res mem' log :
  AddressMap.ordered width m ->
  0 <= wl -> wu - wl + 1 < modulus width ->
  bounded_transfers width V B -> stores_within width V B ->
  AddressMap.read width h m mem buf (Interval.Range wl wu) req proh
  = Some (res, mem', log) ->
  length mem' = length mem
  /\ (forall i, (i < buf \/ buf + Z.to_nat (wu - wl + 1) <= i)%nat ->
                mem' !! i = mem !! i).
Proof.
  intros Hord Hwl Hsz Hlaw Hwin Hr. unfold AddressMap.read in Hr.
  cbn [Interval.isEmpty negb Interval.lower] in Hr.
  apply (read_loop_window width V B h wl wu req proh buf Hwl Hsz Hlaw Hwin
           _ _ _ _ _ (-1) _ _ _ (find_above width m wl (-1) Hord)) in Hr;
    [exact Hr|].
  left. split; [reflexivity|]. split; [reflexivity | apply find_first_contains].
Qed.

Lemma read_stores_in_request_witness :
  length [x14; x15; x16; x17; x00; x01] = length (replicate 4 x00 ++ [x00; x01])
  /\ (forall i, (i < 0 \/ 0 + Z.to_nat (103 - 100 + 1) <= i)%nat ->
                [x14; x15; x16; x17; x00; x01] !! i
                = (replicate 4 x00 ++ [x00; x01]) !! i).
Proof.
  apply (read_stores_in_request 32 byte BufferObject Examples.heap Examples.short_map
           (replicate 4 x00 ++ [x00; x01]) 0%nat 100 103 AddressMap.READABLE 0
           (Interval.Range 100 103) [x14; x15; x16; x17; x00; x01]
           [AddressMap.mkTransfer (Interval.Range 100 103) 2 0 4]).
  - unfold AddressMap.ordered. simpl. vm_compute. repeat split; discriminate.
  - lia.
  - vm_compute. reflexivity.
  - apply BufferObject_bounded.
  - apply BufferObject_stores_within.
  - vm_compute. reflexivity.
Defined.


(** ** AddressMap: availability without a filter *)

Lemma isAccessAllowed_default has : AddressMap.isAccessAllowed has 0 0 = true.
Proof.
  unfold AddressMap.isAccessAllowed. rewrite !Z.land_0_r. reflexivity.
Qed.

(** X18. With the default arguments (nothing required, nothing prohibited)
    [available] returns exactly the maximal mapped run from [start]: over an
    ordered map, an address belongs to the result exactly when every
    address from [start] up to it is mapped. *)
Theorem available_default_run width m start :
  AddressMap.ordered width m ->
  forall a,
    Interval.elem a (AddressMap.available width m start 0 0)
    <-> start <= a
        /\ (forall a', start <= a' <= a ->
              exists n, n ∈ m /\ Interval.isContaining (AddressMap.key n) a' = true).
Proof.
  intros Hord a.
  destruct (AddressMap.find m start) as [|n next] eqn:Ef.
  - unfold AddressMap.available. rewrite Ef. simpl. split; [contradiction|].
    intros [Hle Hmap]. destruct (Hmap start ltac:(lia)) as (n & Hin & Hc).
    pose proof (proj1 (find_nil_iff m start) Ef n Hin) as Hno. congruence.
  - destruct (available_from_find width m start 0 0 n next Hord Ef)
      as (hi & -> & Hlo & _ & _ & Hrun & Hmax).
    simpl. split.
    + intros Ha. split; [lia|]. intros a' Ha'.
      destruct (Hrun a' ltac:(lia)) as (n' & Hin & Hc & _). eauto.
    + intros [Hle Hmap]. split; [exact Hle|].
      destruct (Z_le_gt_dec a hi) as [Hok|Hgt]; [exact Hok|]. exfalso.
      destruct (Hmap (hi + 1) ltac:(lia)) as (n' & Hin & Hc).
      specialize (Hmax n' Hin Hc). rewrite isAccessAllowed_default in Hmax.
      discriminate.
Qed.

Lemma available_default_run_witness :
  Interval.elem 107 (AddressMap.available 32 Examples.two_map 101 0 0)
  <-> 101 <= 107
      /\ (forall a', 101 <= a' <= 107 ->
            exists n, n ∈ Examples.two_map
                      /\ Interval.isContaining (AddressMap.key n) a' = true).
Proof.
  apply (available_default_run 32 Examples.two_map 101).
  unfold AddressMap.ordered. simpl. vm_compute. repeat split; discriminate.
Defined.

(** ** AddressMap: a short transfer ends the call *)

Lemma total_returned_complete width log :
  Forall (complete width) log -> 0 <= total_returned log.
Proof.
  induction 1 as [|t log Ht _ IH]; simpl; [lia|].
  unfold complete in Ht. pose proof (size_nonneg width (AddressMap.t_part t)). lia.
Qed.

Lemma app_self_nil {A} (l new : list A) : l = l ++ new -> new = [].
Proof.
  intros H. apply (app_inv_head l). rewrite app_nil_r. symmetry. exact H.
Qed.

(** One step of the induction of [read_loop_through] and
    [write_loop_through]. *)
Ltac loop_through w IH Htrav :=
  let H := fresh "H" in let Hlen := fresh "Hlen" in let Hc := fresh "Hc" in
  intros ? ? ? ? ? ? ? H Hlen Hc;
  cbn [AddressMap.read_loop AddressMap.write_loop app] in H |- *;
  let Ea := fresh "Ea" in let Ep := fresh "Ep" in
  let Eh := fresh "Eh" in let Eb := fresh "Eb" in let Ek := fresh "Ek" in
  loop_case H Ea;
  [ injection H as _ _ H; apply app_self_nil in H; subst; discriminate Hlen |];
  loop_case H Ep;
  [ injection H as _ _ H; apply app_self_nil in H; subst; discriminate Hlen |];
  loop_case H Eh; [|discriminate H];
  loop_case H Eb; [|discriminate H];
  match type of Eb with _ = Some ?pr => destruct pr end;
  loop_case H Ek;
  [ injection H as _ _ H; apply app_inv_head in H; subst;
    apply Forall_cons in Hc; destruct Hc as [Hc _]; unfold complete in Hc; simpl in Hc;
    apply negb_true_iff in Ek; apply Z.eqb_neq in Ek; contradiction
  | apply negb_false_iff in Ek; apply Z.eqb_eq in Ek;
    let Ht := fresh "Ht" in let new' := fresh "new" in let Hnew := fresh "Hnew" in
    pose proof H as Ht; apply Htrav in Ht;
    destruct Ht as [new' [Hnew _]]; rewrite <- app_assoc in Hnew;
    apply app_inv_head in Hnew; simpl in Hnew; subst;
    apply Forall_cons in Hc; destruct Hc as [_ Hc];
    match type of H with
    | _ = Some (_, _, ?l ++ ?t :: ?n') =>
        replace (l ++ t :: n') with ((l ++ [t]) ++ n') in H |- *
          by (rewrite <- app_assoc; reflexivity);
        pose proof (total_returned_complete w _ Hc);
        pose proof (size_nonneg w (AddressMap.t_part t))
    end;
    rewrite (IH _ _ _ _ _ _ _ H); [| simpl in Hlen; lia | exact Hc];
    f_equal; simpl in *; rewrite Z2Nat.inj_add by lia; lia ].

(** A loop that made one complete call for every node of [pre] went through
    all of [pre]: over [pre ++ rest] it goes on with [rest], the cursor in
    the caller's array advanced by the values transferred. *)
Lemma read_loop_through width (V B : Type) `{!Buffer width V B}
      h pre rest where_ req proh :
  forall (mem : list V) buf acc log acc' mem' new,
    AddressMap.read_loop width h pre where_ req proh mem buf acc log
    = Some (acc', mem', log ++ new) ->
    length new = length pre ->
    Forall (complete width) new ->
    AddressMap.read_loop width h (pre ++ rest) where_ req proh mem buf acc log
    = AddressMap.read_loop width h rest where_ req proh mem'
        (buf + Z.to_nat (total_returned new))%nat acc' (log ++ new).
Proof.
  induction pre as [|n next IH].
  - intros mem buf acc log acc' mem' new H Hlen Hc.
    destruct new; [|discriminate Hlen]. simpl in H. injection H as <- <- _.
    simpl. rewrite Nat.add_0_r, app_nil_r. reflexivity.
  - loop_through width IH (read_loop_traversal width V B).
Qed.

Lemma write_loop_through width (V B : Type) `{!Buffer width V B}
      pre rest where_ req proh (mem : list V) :
  forall h buf acc log acc' h' new,
    AddressMap.write_loop width h pre where_ req proh mem buf acc log
    = Some (acc', h', log ++ new) ->
    length new = length pre ->
    Forall (complete width) new ->
    AddressMap.write_loop width h (pre ++ rest) where_ req proh mem buf acc log
    = AddressMap.write_loop width h' rest where_ req proh mem
        (buf + Z.to_nat (total_returned new))%nat acc' (log ++ new).
Proof.
  induction pre as [|n next IH].
  - intros h buf acc log acc' h' new H Hlen Hc.
    destruct new; [|discriminate Hlen]. simpl in H. injection H as <- <- _.
    simpl. rewrite Nat.add_0_r, app_nil_r. reflexivity.
  - loop_through width IH (write_loop_traversal width V B).
Qed.

Lemma passes_tests width where_ req proh acc n :
  AddressMap.passes width where_ req proh acc n ->
  negb (AddressMap.isAccessAllowed (accessibility (AddressMap.value n)) req proh) = false
  /\ Interval.isEmpty (Interval.intersection where_ (AddressMap.key n))
     || (negb (Interval.isEmpty acc)
         && negb (wrap width (Interval.upper acc + 1)
                  =? Interval.lower (Interval.intersection where_ (AddressMap.key n)))) = false.
Proof.
  intros (Ha & Hne & Hgap). split; [rewrite Ha; reflexivity|].
  rewrite Hne. simpl. destruct Hgap as [He|Hc].
  - rewrite He. reflexivity.
  - apply Z.eqb_eq in Hc. rewrite Hc. apply andb_false_r.
Qed.

(** X21. A short read ends the call. When the iterator of [read] reaches
    node [n] after one complete transfer for every node before it, [n]
    passes the filter and continues the accumulated interval, and its
    buffer returns a count [k] different from the size of the intersection
    it was asked for, then [read] returns the accumulated interval extended
    by [baseSize (part.lower(), k)], with the caller's array as that last
    buffer call left it, and makes no further buffer call, whatever nodes
    follow [n] in the map. *)
Theorem read_short_transfer width (V B : Type) `{!Buffer width V B}
        (h : gmap nat B) (m : list AddressMap.Node) (mem : list V) (buf : nat)
        (where_ : Interval.t) (req proh : Z)
        pre n next acc mem1 log1 b mem2 k :
  Interval.isEmpty where_ = false ->
  AddressMap.find m (Interval.lower where_) = pre ++ n :: next ->
  AddressMap.read_loop width h pre where_ req proh mem buf Interval.Empty []
  = Some (acc, mem1, log1) ->
  length log1 = length pre ->
  Forall (complete width) log1 ->
  AddressMap.passes width where_ req proh acc n ->
  h !! buffer (AddressMap.value n) = Some b ->
  buf_read b mem1 (buf + Z.to_nat (total_returned log1))%nat
    (AddressMap.t_offset (AddressMap.transfer_at width where_ n k))
    (Interval.size width (Interval.intersection where_ (AddressMap.key n)))
  = Some (mem2, k) ->
  k <> Interval.size width (Interval.intersection where_ (AddressMap.key n)) ->
  AddressMap.read width h m mem buf where_ req proh
  = Some (Interval.hull acc
            (Interval.baseSize width
               (Interval.lower (Interval.intersection where_ (AddressMap.key n))) k),
          mem2, log1 ++ [AddressMap.transfer_at width where_ n k]).
Proof.
  intros Hne Hfind Hpre Hlen Hc Hp Hb Hcall Hk.
  unfold AddressMap.read. rewrite Hne, Hfind. cbn [negb].
  rewrite (read_loop_through width V B h pre (n :: next) where_ req proh
             mem buf Interval.Empty [] acc mem1 log1 Hpre Hlen Hc).
  destruct (passes_tests _ _ _ _ _ _ Hp) as [Ea Ep].
  cbn [AddressMap.read_loop app]. rewrite Ea, Ep, Hb.
  unfold AddressMap.transfer_at in Hcall |- *. cbn [AddressMap.t_offset] in Hcall.
  rewrite Hcall. apply Z.eqb_neq in Hk. rewrite Hk. reflexivity.
Qed.

(** X22. A short write ends the call. When the iterator of [write] reaches
    node [n] after one complete transfer for every node before it, [n]
    passes the filter and continues the accumulated interval, and its
    buffer returns a count [k] different from the size of the intersection
    it was asked for, then [write] returns the accumulated interval
    extended by [baseSize (part.lower(), k)], with the buffers as the
    complete calls and that last call left them, and makes no further
    buffer call, whatever nodes follow [n] in the map. *)
Theorem write_short_transfer width (V B : Type) `{!Buffer width V B}
        (h : gmap nat B) (m : list AddressMap.Node) (mem : list V) (buf : nat)
        (where_ : Interval.t) (req proh : Z)
        pre n next acc h1 log1 b b' k :
  Interval.isEmpty where_ = false ->
  AddressMap.find m (Interval.lower where_) = pre ++ n :: next ->
  AddressMap.write_loop width h pre where_ req proh mem buf Interval.Empty []
  = Some (acc, h1, log1) ->
  length log1 = length pre ->
  Forall (complete width) log1 ->
  AddressMap.passes width where_ req proh acc n ->
  h1 !! buffer (AddressMap.value n) = Some b ->
  buf_write b mem (buf + Z.to_nat (total_returned log1))%nat
    (AddressMap.t_offset (AddressMap.transfer_at width where_ n k))
    (Interval.size width (Interval.intersection where_ (AddressMap.key n)))
  = Some (b', k) ->
  k <> Interval.size width (Interval.intersection where_ (AddressMap.key n)) ->
  AddressMap.write width h m mem buf where_ req proh
  = Some (Interval.hull acc
            (Interval.baseSize width
               (Interval.lower (Interval.intersection where_ (AddressMap.key n))) k),
          <[buffer (AddressMap.value n) := b']> h1,
          log1 ++ [AddressMap.transfer_at width where_ n k]).
Proof.
  intros Hne Hfind Hpre Hlen Hc Hp Hb Hcall Hk.
  unfold AddressMap.write. rewrite Hne, Hfind. cbn [negb].
  rewrite (write_loop_through width V B pre (n :: next) where_ req proh mem
             h buf Interval.Empty [] acc h1 log1 Hpre Hlen Hc).
  destruct (passes_tests _ _ _ _ _ _ Hp) as [Ea Ep].
  cbn [AddressMap.write_loop app]. rewrite Ea, Ep, Hb.
  unfold AddressMap.transfer_at in Hcall |- *. cbn [AddressMap.t_offset] in Hcall.
  rewrite Hcall. apply Z.eqb_neq in Hk. rewrite Hk. reflexivity.
Qed.

Lemma read_short_transfer_witness :
  AddressMap.read 32 Examples.heap Examples.stalled_map (replicate 12 x00) 0
    (Interval.Range 100 111) AddressMap.READABLE 0
  = Some (Interval.Range 100 107,
          [x0c; x0d; x0e; x0f; x14; x15; x16; x17; x00; x00; x00; x00],
          [AddressMap.mkTransfer (Interval.Range 100 103) 1 2 4;
           AddressMap.mkTransfer (Interval.Range 104 109) 2 0 4]).
Proof.
  exact (read_short_transfer 32 byte BufferObject Examples.heap Examples.stalled_map
           (replicate 12 x00) 0%nat (Interval.Range 100 111) AddressMap.READABLE 0
           [(Interval.Range 100 103, mkSegment 1 2 Examples.rw)]
           (Interval.Range 104 109, mkSegment 2 0 Examples.rw)
           [(Interval.Range 110 111, mkSegment 1 0 Examples.rw)]
           (Interval.Range 100 103)
           [x0c; x0d; x0e; x0f; x00; x00; x00; x00; x00; x00; x00; x00]
           [AddressMap.mkTransfer (Interval.Range 100 103) 1 2 4]
           (Mapped Examples.four_mapping)
           [x0c; x0d; x0e; x0f; x14; x15; x16; x17; x00; x00; x00; x00] 4
           eq_refl eq_refl eq_refl eq_refl
           ltac:(repeat constructor)
           ltac:(repeat split; right; reflexivity)
           eq_refl eq_refl
           ltac:(vm_compute; discriminate)).
Defined.

Lemma write_short_transfer_witness :
  match AddressMap.write 32 Examples.heap Examples.stalled_map
          [x01; x02; x03; x04; x05; x06; x07; x08; x09; x0a; x0b; x0c] 0
          (Interval.Range 100 111) AddressMap.WRITABLE 0 with
  | Some (res, h', log) =>
      res = Interval.Range 100 107
      /\ log = [AddressMap.mkTransfer (Interval.Range 100 103) 1 2 4;
                AddressMap.mkTransfer (Interval.Range 104 109) 2 0 4]
      /\ (fun j => cell_at h' (1%nat, j)) <$> [0; 1; 2; 3; 4; 5]
         = Some <$> [x0a; x0b; x01; x02; x03; x04]
      /\ (fun j => cell_at h' (2%nat, j)) <$> [0; 1; 2; 3]
         = Some <$> [x05; x06; x07; x08]
  | None => False
  end.
Proof.
  erewrite (write_short_transfer 32 byte BufferObject Examples.heap Examples.stalled_map
              [x01; x02; x03; x04; x05; x06; x07; x08; x09; x0a; x0b; x0c] 0%nat
              (Interval.Range 100 111) AddressMap.WRITABLE 0
              [(Interval.Range 100 103, mkSegment 1 2 Examples.rw)]
              (Interval.Range 104 109, mkSegment 2 0 Examples.rw)
              [(Interval.Range 110 111, mkSegment 1 0 Examples.rw)]
              _ _ _ _ _ 4); cycle 1.
  - reflexivity.
  - reflexivity.
  - reflexivity.
  - reflexivity.
  - repeat constructor.
  - repeat split. right. reflexivity.
  - reflexivity.
  - reflexivity.
  - vm_compute. discriminate.
  - vm_compute. repeat split.
Defined.
